(** * Wichteln: the Secret-Santa server (server.js)

    A shallow embedding of the draw generator, the validator, the
    round-state functions and the HTTP handlers of [server.js], and the
    properties of the round they maintain.

    Conventions of the embedding.
    - A value read from [state.json] is a [json] tree; a JavaScript value
      is an [option json], [None] standing for [undefined].
    - A plain object is a finite map from property names to values: its
      own properties.  What an object inherits from [Object.prototype]
      is not in the map, so [get_prop] and the assignment of a property
      are those of JavaScript for the names outside
      [Object_prototype_names], as the configured members are; the
      properties of lists of names in general ask for such names.
      Arrays and objects are compared by identity
      in JavaScript and every array or object of a parsed file is an
      object of its own: [same_value_zero] never equates two of them.
    - Numbers are the integers; the program only tests numbers for
      truthiness and identity.  A string is the sequence of its
      characters, one byte each.
    - [Math.random], the file [state.json] and thrown exceptions are made
      explicit: a computation is a function from the [world] to an
      outcome and the world it leaves behind.  Writing the file fails
      where nothing can be written ([Blocked]) and succeeds otherwise: a
      file that can be parsed is taken to be one that can be replaced.
      What [JSON.stringify] wrote, [JSON.parse] reads back. *)

From stdpp Require Import gmap strings list fin_maps pretty.

Set Warnings "-register-all".

(** ** Values *)

Inductive json : Type :=
  | JNull
  | JBool (b : bool)
  | JNum (z : Z)
  | JStr (s : string)
  | JArr (items : list json)
  | JObj (fields : gmap string json).

Abbreviation value := (option json).
Abbreviation undefined := (@None json).

(** [!!v] of JavaScript. *)
Definition truthy (v : value) : bool :=
  match v with
  | None | Some JNull => false
  | Some (JBool b) => b
  | Some (JNum z) => negb (bool_decide (z = 0%Z))
  | Some (JStr s) => negb (bool_decide (s = ""))
  | Some (JArr _) | Some (JObj _) => true
  end.

(** SameValueZero, the equality of [Set] and of [Array.prototype.includes],
    and on the values at hand also [===]. *)
Definition same_value_zero (a b : value) : bool :=
  match a, b with
  | None, None => true
  | Some JNull, Some JNull => true
  | Some (JBool x), Some (JBool y) => bool_decide (x = y)
  | Some (JNum x), Some (JNum y) => bool_decide (x = y)
  | Some (JStr x), Some (JStr y) => bool_decide (x = y)
  | _, _ => false
  end.

(** ** Exceptions *)

Inductive error : Type :=
  | TooFewNames                 (* Zu wenige Namen *)
  | NoValidPlan                 (* Konnte keinen gueltigen Plan erzeugen *)
  | KeyCountMismatch            (* Anzahl Schluessel passt nicht *)
  | ValueCountMismatch          (* Anzahl Werte passt nicht *)
  | NoGiftee (name : string)    (* Kein Wichtel fuer name *)
  | SelfGift (name : string)    (* name beschenkt sich selbst *)
  | DuplicateGiftee             (* Ein Name wird mehrfach beschenkt *)
  | TypeError
  | SyntaxError
  | IOError.

Inductive result (A : Type) : Type :=
  | Ok (a : A)
  | Throw (e : error).
Arguments Ok {A} a.
Arguments Throw {A} e.

Definition rbind {A B} (r : result A) (k : A → result B) : result B :=
  match r with
  | Ok a => k a
  | Throw e => Throw e
  end.

Notation "x <~ c1 ;; c2" := (rbind c1 (λ x, c2))
  (at level 100, c1 at next level, right associativity).

(** ** Built-in operations on values *)

(** The keys of an array or a string are its indices in decimal. *)
Definition index_keys (n : nat) : list string := pretty <$> seq 0 n.

Definition chars (s : string) : list json :=
  (λ c, JStr (String c EmptyString)) <$> String.list_ascii_of_string s.

Definition Object_keys (v : value) : result (list string) :=
  match v with
  | None | Some JNull => Throw TypeError
  | Some (JObj m) => Ok (map_to_list m).*1
  | Some (JArr l) => Ok (index_keys (length l))
  | Some (JStr s) => Ok (index_keys (String.length s))
  | Some (JBool _) | Some (JNum _) => Ok []
  end.

Definition Object_values (v : value) : result (list json) :=
  match v with
  | None | Some JNull => Throw TypeError
  | Some (JObj m) => Ok (map_to_list m).*2
  | Some (JArr l) => Ok l
  | Some (JStr s) => Ok (chars s)
  | Some (JBool _) | Some (JNum _) => Ok []
  end.

(** The index an array-index key denotes, if it is below [n]. *)
Definition index_of_key (k : string) (n : nat) : option nat :=
  find (λ i, bool_decide (pretty i = k)) (seq 0 n).

(** [v[k]], for a key [k] that [v] does not inherit: the own property,
    an index or the length. *)
Definition get_prop (v : value) (k : string) : result value :=
  match v with
  | None | Some JNull => Throw TypeError
  | Some (JObj m) => Ok (m !! k)
  | Some (JArr l) =>
      if bool_decide (k = "length")
      then Ok (Some (JNum (Z.of_nat (length l))))
      else Ok (i ← index_of_key k (length l); l !! i)
  | Some (JStr s) =>
      if bool_decide (k = "length")
      then Ok (Some (JNum (Z.of_nat (String.length s))))
      else Ok (i ← index_of_key k (String.length s); chars s !! i)
  | Some (JBool _) | Some (JNum _) => Ok None
  end.

(** The names every plain object inherits from [Object.prototype]: for
    these [v[k]] finds a value also where [v] has no such property of
    its own, and [v["__proto__"] = x] creates none. *)
Definition Object_prototype_names : list string :=
  ["constructor"; "__defineGetter__"; "__defineSetter__"; "hasOwnProperty";
   "__lookupGetter__"; "__lookupSetter__"; "isPrototypeOf";
   "propertyIsEnumerable"; "toString"; "valueOf"; "__proto__";
   "toLocaleString"].

(** [new Set(values)] for an array: the distinct elements in the order of
    their first occurrence. *)
Definition Set_add (s : list json) (v : json) : list json :=
  if existsb (λ x, same_value_zero (Some x) (Some v)) s then s else s ++ [v].

Definition new_Set (values : list json) : list json := foldl Set_add [] values.

Definition Set_has (s : list json) (v : json) : bool :=
  existsb (λ x, same_value_zero (Some x) (Some v)) s.

(** ** The world: the state file and the random source *)

(** A number of the half-open unit interval, [numer / (numer + gap + 1)]. *)
Record fraction : Type := Fraction { numer : nat; gap : nat }.

(** [Math.floor(r * k)]. *)
Definition floor_mul (r : fraction) (k : nat) : nat :=
  (numer r * k) `div` (numer r + gap r + 1).

Inductive file : Type :=
  | NoFile                 (* state.json does not exist *)
  | Unreadable             (* it exists, reading it fails, and writing
                              replaces it *)
  | Blocked                (* it can be neither read nor written: a
                              directory, or a file without permissions *)
  | Garbage                (* its text is not JSON *)
  | Stored (v : json).     (* its text is the JSON of [v] *)

Record world : Type := World {
  disk : file;
  random_tape : nat → fraction;   (* the numbers Math.random will return *)
  random_pos : nat                (* how many it has returned *)
}.

Definition M (A : Type) : Type := world → result A * world.

Definition ret {A} (a : A) : M A := λ w, (Ok a, w).
Definition throw {A} (e : error) : M A := λ w, (Throw e, w).
Definition bind {A B} (c : M A) (k : A → M B) : M B :=
  λ w, match c w with
       | (Ok a, w') => k a w'
       | (Throw e, w') => (Throw e, w')
       end.
Definition lift {A} (r : result A) : M A := λ w, (r, w).
Definition try_catch {A} (c : M A) (handler : error → M A) : M A :=
  λ w, match c w with
       | (Ok a, w') => (Ok a, w')
       | (Throw e, w') => handler e w'
       end.

Notation "x <- c1 ;; c2" := (bind c1 (λ x, c2))
  (at level 100, c1 at next level, right associativity).
Notation "c1 ;;; c2" := (bind c1 (λ _, c2))
  (at level 100, right associativity).

Definition Math_random : M fraction :=
  λ w, (Ok (random_tape w (random_pos w)),
        World (disk w) (random_tape w) (S (random_pos w))).

Definition fs_existsSync : M bool :=
  λ w, (Ok (match disk w with NoFile => false | _ => true end), w).

(** The text of the file, as what [JSON.parse] makes of it. *)
Definition fs_readFileSync : M (option json) :=
  λ w, match disk w with
       | NoFile | Unreadable | Blocked => (Throw IOError, w)
       | Garbage => (Ok None, w)
       | Stored v => (Ok (Some v), w)
       end.

Definition JSON_parse (raw : option json) : M json :=
  match raw with
  | None => throw SyntaxError
  | Some v => ret v
  end.

(** [fs.writeFileSync(STATE_FILE, JSON.stringify(state))]. *)
Definition fs_writeFileSync (v : json) : M unit :=
  λ w, match disk w with
       | Blocked => (Throw IOError, w)
       | _ => (Ok tt, World (Stored v) (random_tape w) (random_pos w))
       end.

(** ** server.js *)

(** The members, lines 10-22. *)
Definition NAMES : list string :=
  ["Anni"; "Ben"; "Beni"; "Daniel"; "Elisa"; "Till"; "Dustin"; "Johann";
   "Lara"; "Marvin"; "Paul"].

(** [loadState()], lines 32-43. *)
Definition loadState : M json :=
  present <- fs_existsSync ;;
  if negb present then ret JNull
  else try_catch (raw <- fs_readFileSync ;; JSON_parse raw) (λ _, ret JNull).

(** [saveState(state)], lines 45-47. *)
Definition saveState (state : json) : M unit := fs_writeFileSync state.

(** [[perm[i], perm[j]] = [perm[j], perm[i]]], line 81; the loop keeps
    both indices inside the array. *)
Definition swap (perm : list string) (i j : nat) : list string :=
  match perm !! i, perm !! j with
  | Some x, Some y => <[j:=x]> (<[i:=y]> perm)
  | _, _ => perm
  end.

(** The Fisher-Yates loop, lines 79-82, from index [i] down to 1. *)
Fixpoint shuffle (i : nat) (perm : list string) : M (list string) :=
  match i with
  | 0 => ret perm
  | S i' =>
      r <- Math_random ;;
      let j := floor_mul r (i + 1) in
      shuffle i' (swap perm i j)
  end.

(** [perm.some((name, index) => name === names[index])], line 87. *)
Definition has_fixed_point (perm names : list string) : bool :=
  existsb (λ pn, bool_decide (pn.1 = pn.2)) (zip perm names).

(** The retry ceiling of line 84. *)
Definition MAX_ATTEMPTS : N := 10000.

(** The do-while loop, lines 74-87, entered with [attempts] attempts made.
    [fuel] bounds the number of passes; the loop leaves after at most
    [MAX_ATTEMPTS + 1] of them, so with that much fuel the branch for
    exhausted fuel is not reached (see [draw_loop_fuel]). *)
Fixpoint draw_loop (fuel : nat) (attempts : N) (names : list string)
  : M (list string) :=
  match fuel with
  | 0 => throw NoValidPlan
  | S fuel' =>
      let attempts := (attempts + 1)%N in
      perm <- shuffle (length names - 1) names ;;
      if (MAX_ATTEMPTS <? attempts)%N then throw NoValidPlan
      else if has_fixed_point perm names then draw_loop fuel' attempts names
      else ret perm
  end.

(** The loop [assignments[names[i]] = perm[i]], lines 89-92: every
    assignment creates or replaces the key (for names other than
    "__proto__"). *)
Definition build_assignments (names perm : list string) : gmap string json :=
  foldl (λ acc kv, <[kv.1 := JStr kv.2]> acc) ∅ (zip names perm).

(** The loop over the members of [validateAssignments], lines 118-125. *)
Fixpoint check_members (assignments : value) (names : list string)
  : result unit :=
  match names with
  | [] => Ok tt
  | name :: rest =>
      giftee <~ get_prop assignments name ;;
      if negb (truthy giftee) then Throw (NoGiftee name)
      else if same_value_zero giftee (Some (JStr name))
      then Throw (SelfGift name)
      else check_members assignments rest
  end.

(** [validateAssignments(assignments, names)], lines 106-132. *)
Definition validateAssignments (assignments : value) (names : list string)
  : result unit :=
  keys <~ Object_keys assignments ;;
  if negb (bool_decide (length keys = length names)) then Throw KeyCountMismatch
  else
    values <~ Object_values assignments ;;
    if negb (bool_decide (length values = length names))
    then Throw ValueCountMismatch
    else
      _ <~ check_members assignments names ;;
      let valueSet := new_Set values in
      if negb (bool_decide (length valueSet = length values))
      then Throw DuplicateGiftee
      else Ok tt.

(** [createDerangement(names)], lines 56-98. *)
Definition createDerangement (names : list string) : M (gmap string json) :=
  match names with
  | [] | [_] => throw TooFewNames
  | [name0; name1] => ret (<[name1 := JStr name0]> (<[name0 := JStr name1]> ∅))
  | _ =>
      perm <- draw_loop (N.to_nat (MAX_ATTEMPTS + 1)) 0 names ;;
      let assignments := build_assignments names perm in
      lift (validateAssignments (Some (JObj assignments)) names) ;;;
      ret assignments
  end.

(** The object literal [{ names: NAMES, assignments, revealed: [] }] of
    lines 146-150 and 159-163. *)
Definition new_state (assignments : gmap string json) : json :=
  JObj (<["revealed" := JArr []]>
        (<["assignments" := JObj assignments]>
         (<["names" := JArr (JStr <$> NAMES)]> ∅))).

(** The block both branches of [initState] run to create a round, lines
    145-151 and 158-164. *)
Definition new_round : M json :=
  assignments <- createDerangement NAMES ;;
  let state := new_state assignments in
  saveState state ;;;
  ret state.

(** [initState(forceNew)], lines 140-169. *)
Definition initState (forceNew : bool) : M json :=
  state <- (if forceNew then ret JNull else loadState) ;;
  absent <- (if negb (truthy (Some state)) then ret true
             else assignments <- lift (get_prop (Some state) "assignments") ;;
                  ret (negb (truthy assignments))) ;;
  if absent then new_round
  else
    try_catch
      (assignments <- lift (get_prop (Some state) "assignments") ;;
       lift (validateAssignments assignments NAMES) ;;;
       ret state)
      (λ _, new_round).

(** [new Set(v)] for any value. *)
Definition Set_of (v : value) : result (list json) :=
  match v with
  | None | Some JNull => Ok []
  | Some (JArr l) => Ok (new_Set l)
  | Some (JStr s) => Ok (new_Set (chars s))
  | Some (JBool _) | Some (JNum _) | Some (JObj _) => Throw TypeError
  end.

(** [v.filter(f)]: only an array has the method. *)
Definition Array_filter (v : value) (f : json → bool) : result (list json) :=
  match v with
  | Some (JArr l) => Ok (List.filter f l)
  | _ => Throw TypeError
  end.

Record public_state : Type := PublicState {
  ps_names : value;
  ps_availableNames : list json;
  ps_revealed : value
}.

(** [getPublicState()], lines 174-184. *)
Definition getPublicState : M public_state :=
  state <- initState false ;;
  revealed <- lift (get_prop (Some state) "revealed") ;;
  revealedSet <- lift (Set_of revealed) ;;
  names <- lift (get_prop (Some state) "names") ;;
  availableNames <-
    lift (Array_filter names (λ n, negb (Set_has revealedSet n))) ;;
  ret (PublicState names availableNames revealed).

(** ** The routes *)

Inductive client_error : Type :=
  | InvalidName      (* Ungueltiger Name. *)
  | NoAssignment.    (* Fuer diesen Namen gibt es keine Zuordnung. *)

Inductive response : Type :=
  | StateBody (body : json)                                          (* 200 *)
  | DrawBody (name : string) (giftee : value) (alreadyRevealed : bool) (* 200 *)
  | ResetBody                                                        (* 200 *)
  | DebugBody (assignments : value)                                  (* 200 *)
  | BadRequest (why : client_error)                                  (* 400 *)
  | ServerError                                                      (* 500 *)
  | Uncaught (e : error).   (* thrown out of the handler: Express sends 500 *)

Definition handler : Type := world → response * world.

(** A handler body without try/catch. *)
Definition uncaught (c : M response) : handler :=
  λ w, match c w with
       | (Ok r, w') => (r, w')
       | (Throw e, w') => (Uncaught e, w')
       end.

(** A handler body inside [try { ... } catch (e) { res.status(500) ... }]. *)
Definition caught (c : M response) : handler :=
  λ w, match c w with
       | (Ok r, w') => (r, w')
       | (Throw _, w') => (ServerError, w')
       end.

(** A field of the body [res.json] sends: [JSON.stringify] leaves out a
    field whose value is [undefined]. *)
Definition set_field (k : string) (v : value) (m : gmap string json)
  : gmap string json :=
  match v with
  | Some x => <[k := x]> m
  | None => m
  end.

Definition json_of_public_state (ps : public_state) : json :=
  JObj (set_field "names" (ps_names ps)
        (set_field "availableNames" (Some (JArr (ps_availableNames ps)))
         (set_field "revealed" (ps_revealed ps) ∅))).

(** GET /api/state, lines 189-197. *)
Definition api_state : handler :=
  caught (publicState <- getPublicState ;;
          ret (StateBody (json_of_public_state publicState))).

(** [l.includes(v)] on an array. *)
Definition Array_includes (l : list json) (v : value) : bool :=
  existsb (λ x, same_value_zero (Some x) v) l.

(** [s.includes(p)] on a string. *)
Fixpoint String_includes (s p : string) : bool :=
  String.prefix p s ||
  match s with
  | EmptyString => false
  | String _ s' => String_includes s' p
  end.

(** [v.includes(name)]: arrays and strings have the method. *)
Definition includes (v : value) (name : string) : result bool :=
  match v with
  | Some (JArr l) => Ok (Array_includes l (Some (JStr name)))
  | Some (JStr s) => Ok (String_includes s name)
  | _ => Throw TypeError
  end.

(** [state.revealed.push(name)]: the array inside [state] is extended. *)
Definition push_revealed (state : json) (name : string) : result json :=
  match state with
  | JObj m =>
      match m !! "revealed" with
      | Some (JArr l) => Ok (JObj (<["revealed" := JArr (l ++ [JStr name])]> m))
      | _ => Throw TypeError
      end
  | _ => Throw TypeError
  end.

(** POST /api/draw with [name] the field [name] of the request body,
    lines 200-226. *)
Definition api_draw (name : value) : handler :=
  if negb (truthy name) || negb (Array_includes (JStr <$> NAMES) name)
  then λ w, (BadRequest InvalidName, w)
  else
    match name with
    | Some (JStr name) =>
        uncaught (
          state <- initState false ;;
          assignments <- lift (get_prop (Some state) "assignments") ;;
          giftee <- lift (get_prop assignments name) ;;
          if negb (truthy giftee) then ret (BadRequest NoAssignment)
          else
            revealed <- lift (get_prop (Some state) "revealed") ;;
            alreadyRevealed <- lift (includes revealed name) ;;
            (if negb alreadyRevealed
             then state' <- lift (push_revealed state name) ;; saveState state'
             else ret tt) ;;;
            ret (DrawBody name giftee alreadyRevealed))
    | _ => λ w, (BadRequest InvalidName, w)  (* only strings are in NAMES *)
    end.

(** POST /api/reset, lines 229-237. *)
Definition api_reset : handler :=
  caught (initState true ;;; ret ResetBody).

(** GET /api/debug-assignments, lines 241-249. *)
Definition api_debug_assignments : handler :=
  caught (state <- initState false ;;
          assignments <- lift (get_prop (Some state) "assignments") ;;
          ret (DebugBody assignments)).

(** * The vocabulary of the properties *)

(** ** Derangements *)

(** An assignment is a derangement of [names]: every member is a key
    exactly once, every member is a value exactly once, and no key is
    mapped to itself. *)
Definition is_derangement (names : list string) (a : gmap string json)
  : Prop :=
  (map_to_list a).*1 ≡ₚ names ∧
  (map_to_list a).*2 ≡ₚ JStr <$> names ∧
  ∀ k, a !! k ≠ Some (JStr k).

Definition is_JStr (v : json) : Prop := ∃ g, v = JStr g.

(** ** The checks of the validator *)

(** None of the names is one that plain objects inherit:
    [assignments[name]] then is the object's own property of that name,
    or [undefined]. *)
Definition plain_names (names : list string) : Prop :=
  Forall (λ name, name ∉ Object_prototype_names) names.

Definition is_throw {A} (r : result A) : Prop := ∃ e, r = Throw e.

(** The member has a mapped giftee (check 3). *)
Definition has_giftee (a : gmap string json) (name : string) : bool :=
  truthy (a !! name).

(** The member is mapped to itself (check 4 fails). *)
Definition self_gift (a : gmap string json) (name : string) : bool :=
  same_value_zero (a !! name) (Some (JStr name)).

Definition member_ok (a : gmap string json) (name : string) : bool :=
  has_giftee a name && negb (self_gift a name).

(** No value occurs twice among the giftees (check 5). *)
Definition giftees_distinct (a : gmap string json) : bool :=
  bool_decide (length (new_Set (map_to_list a).*2) = length (map_to_list a).*2).

(** The five checks as five passes one after the other, each over the
    whole mapping: the first one that fails gives the reason. *)
Definition validate_stated_order (a : gmap string json) (names : list string)
  : result unit :=
  if negb (bool_decide (size a = length names)) then Throw KeyCountMismatch
  else if negb (bool_decide (length (map_to_list a).*2 = length names))
  then Throw ValueCountMismatch
  else
    match find (λ n, negb (has_giftee a n)) names with
    | Some name => Throw (NoGiftee name)
    | None =>
        match find (self_gift a) names with
        | Some name => Throw (SelfGift name)
        | None => if giftees_distinct a then Ok tt else Throw DuplicateGiftee
        end
    end.

(** The checks as the code orders them: checks 3 and 4 are made member by
    member, and the first member that fails one of them gives the reason. *)
Definition validate_member_order (a : gmap string json) (names : list string)
  : result unit :=
  if negb (bool_decide (size a = length names)) then Throw KeyCountMismatch
  else
    match find (λ n, negb (member_ok a n)) names with
    | Some name =>
        if has_giftee a name then Throw (SelfGift name)
        else Throw (NoGiftee name)
    | None => if giftees_distinct a then Ok tt else Throw DuplicateGiftee
    end.

(** ** The round in the file *)

(** What [loadState] returns for a file. *)
Definition loaded (d : file) : json :=
  match d with
  | Stored v => v
  | NoFile | Unreadable | Blocked | Garbage => JNull
  end.

(** The persisted record is a round [initState] keeps: it is truthy, it
    has a truthy [assignments] field, and that field validates against
    [NAMES]. *)
Definition valid_round (state : json) : bool :=
  truthy (Some state) &&
  match get_prop (Some state) "assignments" with
  | Ok assignments =>
      truthy assignments &&
      match validateAssignments assignments NAMES with
      | Ok _ => true
      | Throw _ => false
      end
  | Throw _ => false
  end.

(** The [revealed] field of the record in the file. *)
Definition persisted_revealed (w : world) : value :=
  match loaded (disk w) with
  | JObj m => m !! "revealed"
  | _ => None
  end.

(** The givers the file lists as revealed. *)
Definition revealed_members (w : world) : list json :=
  match persisted_revealed w with
  | Some (JArr l) => l
  | _ => []
  end.

(** The valid round in the file maps giver [n] to [giftee] and counts
    [n] among the revealed. *)
Definition revealed_to (n : string) (giftee : value) (w : world) : Prop :=
  ∃ a revealed,
    valid_round (loaded (disk w)) = true
    ∧ get_prop (Some (loaded (disk w))) "assignments" = Ok a
    ∧ get_prop a n = Ok giftee
    ∧ get_prop (Some (loaded (disk w))) "revealed" = Ok revealed
    ∧ includes revealed n = Ok true.

(** The body of GET /api/state for a round nobody has revealed in:
    [{ names: NAMES, availableNames: NAMES, revealed: [] }]. *)
Definition untouched_body : json :=
  JObj (<["names" := JArr (JStr <$> NAMES)]>
        (<["availableNames" := JArr (JStr <$> NAMES)]>
         (<["revealed" := JArr []]> ∅))).

(** ** Runs of requests *)

(** The HTTP status of a response. *)
Definition status (r : response) : nat :=
  match r with
  | StateBody _ | DrawBody _ _ _ | ResetBody | DebugBody _ => 200
  | BadRequest _ => 400
  | ServerError | Uncaught _ => 500
  end.

(** The requests other than the reset. *)
Inductive request : Type :=
  | GetState
  | Draw (name : value)
  | GetDebugAssignments.

Definition serve (r : request) : handler :=
  match r with
  | GetState => api_state
  | Draw name => api_draw name
  | GetDebugAssignments => api_debug_assignments
  end.

(** The world after the requests, served one after the other. *)
Definition serve_all (requests : list request) (w : world) : world :=
  foldl (λ w r, (serve r w).2) w requests.

(** ** Sample data *)

(** A random source that always returns 0. *)
Definition tape_zero : nat → fraction := λ _, Fraction 0 0.

(** A random source that always returns 0.99. *)
Definition tape_high : nat → fraction := λ _, Fraction 99 0.

(** The members in a circle, each giving to the next. *)
Definition circle : gmap string json :=
  list_to_map (zip NAMES (JStr <$> (drop 1 NAMES ++ take 1 NAMES))).

(** A record with valid assignments, no [names], and a number where the
    list of revealed givers should be. *)
Definition odd_record : json :=
  JObj (<["revealed" := JNum 7]> (<["assignments" := JObj circle]> ∅)).

(** A round in which Ben has seen his giftee. *)
Definition sample_round : json :=
  JObj (<["revealed" := JArr [JStr "Ben"]]>
        (<["assignments" := JObj circle]>
         (<["names" := JArr (JStr <$> NAMES)]> ∅))).

Definition sample_world : world := World (Stored sample_round) tape_zero 0.

(** The sample round after Anni has seen her giftee too. *)
Definition sample_round_after : json :=
  JObj (<["revealed" := JArr [JStr "Ben"; JStr "Anni"]]>
        (<["assignments" := JObj circle]>
         (<["names" := JArr (JStr <$> NAMES)]> ∅))).

(** ** The routes together *)

(** Any request: one of the three above, or the reset. *)
Inductive call : Type :=
  | Request (r : request)
  | Reset.

Definition handle (c : call) : handler :=
  match c with
  | Request r => serve r
  | Reset => api_reset
  end.

(** The world after the calls, handled one after the other. *)
Definition handle_all (calls : list call) (w : world) : world :=
  foldl (λ w c, (handle c w).2) w calls.

(** ** The rounds the server writes *)

(** The record of a round over [NAMES] with the mapping [a] in which the
    givers [revealed] have drawn, in this order; [new_state a] is the
    one in which nobody has. *)
Definition server_round (a : gmap string json) (revealed : list string)
  : json :=
  JObj (<["revealed" := JArr (JStr <$> revealed)]>
        (<["assignments" := JObj a]>
         (<["names" := JArr (JStr <$> NAMES)]> ∅))).

(** The file holds such a round: the mapping is a derangement of the
    members, and the revealed givers are members, each listed once. *)
Definition well_formed (w : world) : Prop :=
  ∃ a revealed,
    disk w = Stored (server_round a revealed)
    ∧ is_derangement NAMES a
    ∧ NoDup revealed
    ∧ ∀ n, n ∈ revealed → n ∈ NAMES.

(** * Properties *)

(** ** The monad *)

Lemma bind_inv_Ok {A B} (c : M A) (k : A → M B) w b w' :
  (x <- c ;; k x) w = (Ok b, w') →
  ∃ a w1, c w = (Ok a, w1) ∧ k a w1 = (Ok b, w').
Proof.
  unfold bind. destruct (c w) as [[a|e] w1]; [eauto | discriminate].
Qed.

(** ** The shuffle *)

Lemma floor_mul_bound r k : 0 < k → floor_mul r k < k.
Proof.
  intros Hk. unfold floor_mul.
  apply Nat.Div0.div_lt_upper_bound. nia.
Qed.

Lemma swap_length perm i j : length (swap perm i j) = length perm.
Proof.
  unfold swap. destruct (perm !! i), (perm !! j); try done.
  by rewrite !length_insert.
Qed.

Lemma swap_lookup perm i j k :
  i < length perm → j < length perm →
  swap perm i j !! k =
  perm !! (if decide (k = j) then i else if decide (k = i) then j else k).
Proof.
  intros Hi Hj. unfold swap.
  destruct (lookup_lt_is_Some_2 _ _ Hi) as [x Hx].
  destruct (lookup_lt_is_Some_2 _ _ Hj) as [y Hy].
  rewrite Hx, Hy.
  destruct (decide (k = j)) as [->|Hkj].
  - rewrite list_lookup_insert_eq; [done | by rewrite length_insert].
  - rewrite list_lookup_insert_ne by done.
    destruct (decide (k = i)) as [->|Hki].
    + by rewrite list_lookup_insert_eq.
    + by rewrite list_lookup_insert_ne.
Qed.

Lemma swap_Permutation perm i j :
  i < length perm → j < length perm → swap perm i j ≡ₚ perm.
Proof.
  intros Hi Hj. apply Permutation_inj. split; [apply swap_length|].
  exists (λ k, if decide (k = j) then i else if decide (k = i) then j else k).
  split.
  - intros a b. repeat case_decide; lia.
  - intros k. by apply swap_lookup.
Qed.

(** The shuffle always ends, with a permutation of its input, after
    [i] calls of [Math.random], and leaves the file alone. *)
Lemma shuffle_spec i perm w :
  i < length perm →
  ∃ perm',
    shuffle i perm w
    = (Ok perm', World (disk w) (random_tape w) (random_pos w + i))
    ∧ perm' ≡ₚ perm.
Proof.
  revert perm w. induction i as [|i IH]; intros perm w Hi; simpl.
  - exists perm. split; [|done]. unfold ret. destruct w; simpl.
    by rewrite Nat.add_0_r.
  - unfold bind, Math_random.
    set (j := floor_mul _ _).
    assert (j < S i + 1) by (apply floor_mul_bound; lia).
    destruct (IH (swap perm (S i) j) (World (disk w) (random_tape w)
                (S (random_pos w)))) as (perm' & Heq & Hperm).
    { rewrite swap_length. lia. }
    exists perm'. simpl in Heq. rewrite Heq. split.
    + do 2 f_equal. lia.
    + rewrite Hperm. apply swap_Permutation; lia.
Qed.

(** ** The retry loop *)

Lemma has_fixed_point_false perm names i x :
  has_fixed_point perm names = false →
  perm !! i = Some x → names !! i = Some x → False.
Proof.
  unfold has_fixed_point. intros Hfix Hp Hn.
  assert (existsb (λ pn : string * string, bool_decide (pn.1 = pn.2))
            (zip perm names) = true) as Htrue; [|congruence].
  apply existsb_exists. exists (x, x). split.
  - apply list_elem_of_In, list_elem_of_lookup. exists i.
    apply lookup_zip_with_Some. eauto.
  - by apply bool_decide_eq_true.
Qed.

Lemma draw_loop_spec fuel attempts names w r w' :
  names ≠ [] →
  draw_loop fuel attempts names w = (r, w') →
  disk w' = disk w ∧ random_tape w' = random_tape w ∧
  match r with
  | Ok perm => perm ≡ₚ names ∧ has_fixed_point perm names = false
  | Throw e => e = NoValidPlan
  end.
Proof.
  intros Hne. revert attempts w.
  induction fuel as [|fuel IH]; intros attempts w; simpl.
  - unfold throw. by intros [= <- <-].
  - unfold bind.
    destruct (shuffle_spec (length names - 1) names w) as (perm & -> & Hperm).
    { destruct names; [done | simpl; lia]. }
    destruct (MAX_ATTEMPTS <? attempts + 1)%N.
    { unfold throw. by intros [= <- <-]. }
    destruct (has_fixed_point perm names) eqn:Hfix.
    + intros Hloop. by apply IH in Hloop.
    + unfold ret. by intros [= <- <-].
Qed.

(** More passes than [MAX_ATTEMPTS + 1 - attempts] are never used: the
    branch of [draw_loop] for exhausted fuel is not reached from
    [createDerangement]. *)
Lemma draw_loop_fuel fuel fuel' attempts names w :
  (attempts ≤ MAX_ATTEMPTS)%N →
  N.to_nat (MAX_ATTEMPTS + 1 - attempts) ≤ fuel →
  N.to_nat (MAX_ATTEMPTS + 1 - attempts) ≤ fuel' →
  draw_loop fuel attempts names w = draw_loop fuel' attempts names w.
Proof.
  revert fuel' attempts w.
  induction fuel as [|fuel IH]; intros fuel' attempts w Hle Hf Hf'.
  { unfold MAX_ATTEMPTS in *. lia. }
  destruct fuel' as [|fuel']; [unfold MAX_ATTEMPTS in *; lia|].
  simpl. unfold bind.
  destruct (shuffle _ _ w) as [[perm|e] w1]; [|done].
  destruct (N.ltb_spec MAX_ATTEMPTS (attempts + 1)); [done|].
  destruct (has_fixed_point perm names); [|done].
  apply IH; unfold MAX_ATTEMPTS in *; lia.
Qed.

(** ** The assignment built from a permutation *)

Lemma fst_prod_map_JStr (kvs : list (string * string)) :
  (prod_map id JStr <$> kvs).*1 = kvs.*1.
Proof. induction kvs as [|[k v] kvs IH]; csimpl; by f_equal. Qed.

Lemma snd_prod_map_JStr (kvs : list (string * string)) :
  (prod_map id JStr <$> kvs).*2 = JStr <$> kvs.*2.
Proof. induction kvs as [|[k v] kvs IH]; csimpl; by f_equal. Qed.

Lemma foldl_insert_list_to_map (kvs : list (string * string))
    (acc : gmap string json) :
  NoDup kvs.*1 →
  foldl (λ acc kv, <[kv.1 := JStr kv.2]> acc) acc kvs
  = list_to_map (prod_map id JStr <$> kvs) ∪ acc.
Proof.
  revert acc. induction kvs as [|[k v] kvs IH]; intros acc Hnd; csimpl.
  - by rewrite (left_id_L ∅ (∪)).
  - rewrite fmap_cons in Hnd. apply NoDup_cons in Hnd as [Hk Hnd].
    rewrite IH by done.
    rewrite <-insert_union_l. symmetry. apply insert_union_r.
    apply not_elem_of_list_to_map. by rewrite fst_prod_map_JStr.
Qed.

Lemma build_assignments_to_list names perm :
  NoDup names → length perm = length names →
  map_to_list (build_assignments names perm)
  ≡ₚ prod_map id JStr <$> zip names perm.
Proof.
  intros Hnd Hlen. unfold build_assignments.
  assert ((zip names perm).*1 = names) as Hfst by (apply fst_zip; lia).
  rewrite foldl_insert_list_to_map by (by rewrite Hfst).
  rewrite (right_id_L ∅ (∪)). apply map_to_list_to_map.
  by rewrite fst_prod_map_JStr, Hfst.
Qed.

Lemma build_assignments_lookup names perm k v :
  NoDup names → length perm = length names →
  build_assignments names perm !! k = Some v ↔
  ∃ i p, names !! i = Some k ∧ perm !! i = Some p ∧ v = JStr p.
Proof.
  intros Hnd Hlen.
  rewrite <-elem_of_map_to_list, build_assignments_to_list by done.
  rewrite list_elem_of_fmap. split.
  - intros ([k' p] & [= -> ->] & Hin).
    apply list_elem_of_lookup in Hin as [i Hi].
    apply lookup_zip_with_Some in Hi as (? & ? & [= <- <-] & ? & ?).
    eauto.
  - intros (i & p & Hn & Hp & ->). exists (k, p). split; [done|].
    apply list_elem_of_lookup. exists i.
    apply lookup_zip_with_Some. eauto.
Qed.

(** ** Derangements *)

Lemma build_assignments_derangement names perm :
  NoDup names → perm ≡ₚ names → has_fixed_point perm names = false →
  is_derangement names (build_assignments names perm).
Proof.
  intros Hnd Hperm Hfix.
  assert (length perm = length names) as Hlen by (by rewrite Hperm).
  repeat split.
  - rewrite build_assignments_to_list by done.
    rewrite fst_prod_map_JStr, fst_zip; [done | lia].
  - rewrite build_assignments_to_list by done.
    rewrite snd_prod_map_JStr, snd_zip by lia. by rewrite Hperm.
  - intros k Hk.
    apply build_assignments_lookup in Hk as (i & p & Hn & Hp & [= <-]);
      [|done..].
    eapply has_fixed_point_false; eauto.
Qed.

Lemma swap_pair_derangement name0 name1 :
  name0 ≠ name1 →
  is_derangement [name0; name1]
    (<[name1 := JStr name0]> (<[name0 := JStr name1]> ∅)).
Proof.
  intros Hne.
  assert (map_to_list (<[name1 := JStr name0]>
            (<[name0 := JStr name1]> (∅ : gmap string json)))
          ≡ₚ [(name1, JStr name0); (name0, JStr name1)]) as Hl.
  { rewrite map_to_list_insert by (by rewrite lookup_insert_ne).
    by rewrite map_to_list_insert, map_to_list_empty by done. }
  repeat split.
  - rewrite Hl. apply Permutation_swap.
  - by rewrite Hl.
  - intros k. rewrite !lookup_insert. repeat case_decide; subst; try done.
    all: intros [= ?]; congruence.
Qed.

(** C1.  Whenever [createDerangement] returns, on a list of at least two
    unique names and whatever [Math.random] yields, the assignment it
    returns is a derangement of the list: each member is a key exactly
    once and a value exactly once, and no key is mapped to itself. *)
Theorem createDerangement_is_derangement names w a w' :
  NoDup names → 2 ≤ length names →
  createDerangement names w = (Ok a, w') →
  is_derangement names a.
Proof.
  intros Hnd Hlen. unfold createDerangement.
  destruct names as [|name0 [|name1 [|name2 rest]]]; simpl in Hlen; try lia.
  - unfold ret. intros [= <- <-]. apply swap_pair_derangement.
    apply NoDup_cons in Hnd as [Hnd _]. set_solver.
  - set (names := name0 :: name1 :: name2 :: rest) in *.
    intros Hrun.
    apply bind_inv_Ok in Hrun as (perm & w1 & Hloop & Hrun).
    apply bind_inv_Ok in Hrun as (_ & w2 & _ & Hrun).
    unfold ret in Hrun. injection Hrun as <- <-.
    apply draw_loop_spec in Hloop as (_ & _ & Hperm & Hfix); [|done].
    by apply build_assignments_derangement.
Qed.

Lemma createDerangement_is_derangement_witness :
  is_derangement ["a"; "b"; "c"]
    (<["a" := JStr "b"]> (<["b" := JStr "c"]> (<["c" := JStr "a"]> ∅))).
Proof.
  apply (createDerangement_is_derangement ["a"; "b"; "c"]
           (World NoFile tape_zero 0) _ (World NoFile tape_zero 2)).
  - compute_done.
  - simpl. lia.
  - vm_compute. reflexivity.
Defined.

(** ** The validator *)

Lemma Object_keys_length (a : gmap string json) :
  length (map_to_list a).*1 = size a.
Proof. by rewrite length_fmap, length_map_to_list. Qed.

Lemma Object_values_length (a : gmap string json) :
  length (map_to_list a).*2 = size a.
Proof. by rewrite length_fmap, length_map_to_list. Qed.

Lemma check_members_find (a : gmap string json) names :
  check_members (Some (JObj a)) names =
  match find (λ n, negb (member_ok a n)) names with
  | Some name =>
      if has_giftee a name then Throw (SelfGift name)
      else Throw (NoGiftee name)
  | None => Ok tt
  end.
Proof.
  induction names as [|name names IH]; [done|].
  simpl. unfold member_ok, has_giftee, self_gift.
  destruct (truthy (a !! name)) eqn:Ht; simpl; [|by rewrite Ht].
  destruct (same_value_zero (a !! name) (Some (JStr name))); simpl.
  - by rewrite Ht.
  - apply IH.
Qed.

Lemma validateAssignments_member_order (a : gmap string json) names :
  validateAssignments (Some (JObj a)) names = validate_member_order a names.
Proof.
  unfold validateAssignments, validate_member_order; simpl.
  rewrite Object_keys_length.
  case_bool_decide as Hsize; simpl; [|done].
  rewrite (bool_decide_eq_true_2 (length (map_to_list a).*2 = length names))
    by (by rewrite Object_values_length).
  simpl. rewrite check_members_find.
  destruct (find _ names) as [name|]; simpl.
  - by destruct (has_giftee a name).
  - unfold giftees_distinct. by case_bool_decide.
Qed.

(** The sets of [new Set]. *)

Lemma Set_add_length s v : length (Set_add s v) ≤ S (length s).
Proof.
  unfold Set_add. destruct (existsb _ s); [lia|].
  rewrite length_app. simpl. lia.
Qed.

Lemma foldl_Set_add_length s l :
  length (foldl Set_add s l) ≤ length s + length l.
Proof.
  revert s. induction l as [|v l IH]; intros s; simpl; [lia|].
  specialize (IH (Set_add s v)). pose proof (Set_add_length s v). lia.
Qed.

Lemma Set_has_add s u v : Set_has s v = true → Set_has (Set_add s u) v = true.
Proof.
  unfold Set_has, Set_add. intros Hs.
  destruct (existsb (λ x, same_value_zero (Some x) (Some u)) s); [done|].
  by rewrite existsb_app, Hs.
Qed.

Lemma Set_has_add_str s g : Set_has (Set_add s (JStr g)) (JStr g) = true.
Proof.
  unfold Set_has, Set_add.
  destruct (existsb _ s) eqn:Hs; [done|].
  rewrite existsb_app. simpl. rewrite bool_decide_eq_true_2 by done.
  by rewrite orb_true_r.
Qed.

Lemma foldl_Set_add_hit s l g :
  Set_has s (JStr g) = true → JStr g ∈ l →
  length (foldl Set_add s l) < length s + length l.
Proof.
  revert s. induction l as [|v l IH]; intros s Hs Hin; simpl.
  - by apply elem_of_nil in Hin.
  - apply elem_of_cons in Hin as [<-|Hin].
    + pose proof (foldl_Set_add_length (Set_add s (JStr g)) l).
      assert (Set_add s (JStr g) = s) as Hsame.
      { unfold Set_add. unfold Set_has in Hs. by rewrite Hs. }
      rewrite Hsame in *. lia.
    + specialize (IH (Set_add s v) (Set_has_add _ _ _ Hs) Hin).
      pose proof (Set_add_length s v). lia.
Qed.

Lemma foldl_Set_add_twice s l i j g :
  i < j → l !! i = Some (JStr g) → l !! j = Some (JStr g) →
  length (foldl Set_add s l) < length s + length l.
Proof.
  revert s i j. induction l as [|v l IH]; intros s i j Hij Hi Hj; [done|].
  simpl. destruct j as [|j]; [lia|]. simpl in Hj.
  destruct i as [|i]; simpl in Hi.
  - injection Hi as ->.
    pose proof (foldl_Set_add_hit (Set_add s (JStr g)) l g
                  (Set_has_add_str s g)) as Hhit.
    pose proof (Set_add_length s (JStr g)).
    assert (JStr g ∈ l) by (apply list_elem_of_lookup; eauto).
    specialize (Hhit ltac:(done)). lia.
  - specialize (IH (Set_add s v) i j ltac:(lia) Hi Hj).
    pose proof (Set_add_length s v). lia.
Qed.

Lemma giftees_distinct_false (a : gmap string json) k1 k2 g :
  k1 ≠ k2 → a !! k1 = Some (JStr g) → a !! k2 = Some (JStr g) →
  giftees_distinct a = false.
Proof.
  intros Hne H1 H2. unfold giftees_distinct.
  apply bool_decide_eq_false_2.
  apply elem_of_map_to_list, list_elem_of_lookup in H1 as [i1 Hi1].
  apply elem_of_map_to_list, list_elem_of_lookup in H2 as [i2 Hi2].
  assert (i1 ≠ i2) by (intros ->; congruence).
  assert ((map_to_list a).*2 !! i1 = Some (JStr g)) as Hv1
    by (by rewrite list_lookup_fmap, Hi1).
  assert ((map_to_list a).*2 !! i2 = Some (JStr g)) as Hv2
    by (by rewrite list_lookup_fmap, Hi2).
  unfold new_Set.
  destruct (decide (i1 < i2)).
  - pose proof (foldl_Set_add_twice [] _ i1 i2 g ltac:(done) Hv1 Hv2).
    simpl in *. lia.
  - pose proof (foldl_Set_add_twice [] _ i2 i1 g ltac:(lia) Hv2 Hv1).
    simpl in *. lia.
Qed.

Lemma find_member_ok_None (a : gmap string json) names name :
  find (λ n, negb (member_ok a n)) names = None →
  name ∈ names → member_ok a name = true.
Proof.
  intros Hfind Hin. apply list_elem_of_In in Hin.
  pose proof (find_none _ _ Hfind _ Hin) as Hok. simpl in Hok.
  by apply negb_false_iff.
Qed.

Lemma validate_member_order_Ok (a : gmap string json) names :
  validate_member_order a names = Ok tt ↔
  size a = length names ∧ (∀ name, name ∈ names → member_ok a name = true) ∧
  giftees_distinct a = true.
Proof.
  unfold validate_member_order. split.
  - case_bool_decide; simpl; [|done].
    destruct (find _ names) as [name|] eqn:Hfind.
    { by destruct (has_giftee a name). }
    destruct (giftees_distinct a); [|done].
    intros _. split_and!; [done| |done].
    intros name. by apply find_member_ok_None.
  - intros (Hsize & Hall & Hdist).
    rewrite bool_decide_eq_true_2 by done. simpl.
    destruct (find _ names) as [name|] eqn:Hfind.
    + apply find_some in Hfind as [Hin Hbad].
      apply list_elem_of_In, Hall in Hin. by rewrite Hin in Hbad.
    + by rewrite Hdist.
Qed.

Lemma validate_member_order_throws (a : gmap string json) names :
  validate_member_order a names ≠ Ok tt →
  is_throw (validate_member_order a names).
Proof.
  destruct (validate_member_order a names) as [[]|e]; [done|].
  intros _. by exists e.
Qed.

(** A mapping with as many keys as there are members, all of them among
    its keys, has no further key. *)
Lemma keys_are_members (a : gmap string json) names x :
  NoDup names → size a = length names →
  (∀ name, name ∈ names → is_Some (a !! name)) →
  is_Some (a !! x) → x ∈ names.
Proof.
  intros Hnd Hsize Hall Hx.
  destruct (decide (x ∈ names)) as [|Hnot]; [done|exfalso].
  assert (x :: names ⊆+ (map_to_list a).*1) as Hsub.
  { apply NoDup_submseteq; [by apply NoDup_cons|].
    intros k Hk. apply elem_of_cons in Hk as [->|Hk].
    - destruct Hx as [v Hv]. apply list_elem_of_fmap. exists (x, v).
      split; [done|]. by apply elem_of_map_to_list.
    - destruct (Hall k Hk) as [v Hv]. apply list_elem_of_fmap. exists (k, v).
      split; [done|]. by apply elem_of_map_to_list. }
  apply submseteq_length in Hsub. rewrite Object_keys_length in Hsub.
  simpl in Hsub. lia.
Qed.

Lemma member_ok_is_Some (a : gmap string json) name :
  member_ok a name = true → is_Some (a !! name).
Proof.
  unfold member_ok, has_giftee. intros [Ht _]%andb_true_iff.
  by destruct (a !! name).
Qed.

(** C2, as stated, fails.  Members A and B; the mapping sends A to A and
    has no entry for B (its second key is C).  Checks 1 and 2 pass and
    check 3 fails for B, so five checks made one after the other report
    the missing giftee of B; the code reports the self-gift of A, as it
    looks at A's checks 3 and 4 before it looks at B at all. *)
Lemma validateAssignments_stated_order_counterexample :
  validateAssignments
    (Some (JObj (<["A" := JStr "A"]> (<["C" := JStr "x"]> ∅))))
    ["A"; "B"]
  = Throw (SelfGift "A")
  ∧ validate_stated_order
      (<["A" := JStr "A"]> (<["C" := JStr "x"]> ∅)) ["A"; "B"]
    = Throw (NoGiftee "B").
Proof. split; vm_compute; reflexivity. Qed.

(** C2, amended.  [validateAssignments] checks the key count, then the
    value count (which cannot fail once the key count is right), then,
    member by member in list order, that the member has a giftee and that
    the giftee is not the member itself, the first member failing either
    giving the reason, and last that no giftee occurs twice.  For
    members whose names are none of those that objects inherit (a name
    such as toString has a giftee in every object), it rejects every
    mapping that lacks a key for a member, every mapping that sends two
    keys to the same name, and, the member names being unique, every
    mapping with an entry x -> x. *)
Theorem validateAssignments_checks (a : gmap string json) names :
  plain_names names →
  validateAssignments (Some (JObj a)) names = validate_member_order a names
  ∧ (∀ name, name ∈ names → a !! name = None →
       is_throw (validateAssignments (Some (JObj a)) names))
  ∧ (∀ k1 k2 g, k1 ≠ k2 → a !! k1 = Some (JStr g) → a !! k2 = Some (JStr g) →
       is_throw (validateAssignments (Some (JObj a)) names))
  ∧ (NoDup names → ∀ x, a !! x = Some (JStr x) →
       is_throw (validateAssignments (Some (JObj a)) names)).
Proof.
  intros _. rewrite validateAssignments_member_order.
  split_and!; [done|..].
  - intros name Hin Hnone. apply validate_member_order_throws.
    intros (_ & Hall & _)%validate_member_order_Ok.
    apply Hall, member_ok_is_Some in Hin. rewrite Hnone in Hin.
    by destruct Hin.
  - intros k1 k2 g Hne H1 H2. apply validate_member_order_throws.
    intros (_ & _ & Hdist)%validate_member_order_Ok.
    by rewrite (giftees_distinct_false a k1 k2 g) in Hdist.
  - intros Hnd x Hx. apply validate_member_order_throws.
    intros (Hsize & Hall & _)%validate_member_order_Ok.
    assert (x ∈ names) as Hin.
    { apply (keys_are_members a); [done..| |by rewrite Hx].
      intros name Hname. by apply member_ok_is_Some, Hall. }
    apply Hall in Hin. unfold member_ok, self_gift in Hin.
    rewrite Hx in Hin. simpl in Hin.
    rewrite bool_decide_eq_true_2 in Hin by done.
    by rewrite andb_false_r in Hin.
Qed.

Lemma validateAssignments_checks_witness :
  is_throw (validateAssignments
              (Some (JObj (<["A" := JStr "B"]> (<["B" := JStr "B"]> ∅))))
              ["A"; "B"]).
Proof.
  destruct (validateAssignments_checks
              (<["A" := JStr "B"]> (<["B" := JStr "B"]> ∅)) ["A"; "B"])
    as (_ & _ & _ & Hself).
  - unfold plain_names. compute_done.
  - apply (Hself ltac:(compute_done) "B"). vm_compute. reflexivity.
Defined.

(** ** Derangements pass the validator *)

Lemma Set_has_app s u v :
  Set_has (s ++ [u]) v
  = Set_has s v || same_value_zero (Some u) (Some v).
Proof. unfold Set_has. rewrite existsb_app. simpl. by rewrite orb_false_r. Qed.

Lemma foldl_Set_add_distinct s l :
  Forall is_JStr l → NoDup l → (∀ v, v ∈ l → Set_has s v = false) →
  length (foldl Set_add s l) = length s + length l.
Proof.
  revert s. induction l as [|v l IH]; intros s Hstr Hnd Hfresh; simpl; [lia|].
  apply Forall_cons in Hstr as [[h ->] Hstr].
  apply NoDup_cons in Hnd as [Hv Hnd].
  assert (Set_add s (JStr h) = s ++ [JStr h]) as ->.
  { unfold Set_add. pose proof (Hfresh (JStr h) ltac:(left)) as Hs.
    unfold Set_has in Hs. by rewrite Hs. }
  rewrite IH, length_app; [simpl; lia|done..|].
  intros u Hu. destruct (proj1 (Forall_forall _ _) Hstr u Hu) as [g ->].
  rewrite Set_has_app, (Hfresh (JStr g)) by (by right). simpl.
  apply bool_decide_eq_false_2. by intros ->.
Qed.

(** A derangement of names none of which is the empty string passes the
    validator: the check that ends [createDerangement] never fails on
    such names. *)
Lemma validate_derangement_Ok (a : gmap string json) names :
  NoDup names → "" ∉ names → is_derangement names a →
  validateAssignments (Some (JObj a)) names = Ok tt.
Proof.
  intros Hnd Hne (Hkeys & Hvals & Hirr).
  rewrite validateAssignments_member_order.
  apply validate_member_order_Ok. split_and!.
  - by rewrite <-Object_keys_length, Hkeys.
  - intros name Hin. rewrite <-Hkeys in Hin.
    apply list_elem_of_fmap in Hin as ([k v] & -> & Hkv). simpl.
    assert (v ∈ (map_to_list a).*2) as Hv.
    { apply list_elem_of_fmap. by exists (k, v). }
    rewrite Hvals in Hv. apply list_elem_of_fmap in Hv as (g & -> & Hg).
    apply elem_of_map_to_list in Hkv.
    unfold member_ok, has_giftee, self_gift. rewrite Hkv. simpl.
    rewrite bool_decide_eq_false_2 by (by intros ->). simpl.
    apply negb_true_iff, bool_decide_eq_false_2.
    intros ->. by apply (Hirr k).
  - unfold giftees_distinct. apply bool_decide_eq_true_2.
    unfold new_Set. rewrite foldl_Set_add_distinct; [done| | |done].
    + rewrite Hvals. apply Forall_fmap, Forall_true. intros g. by exists g.
    + rewrite Hvals. apply NoDup_fmap_2; [|done]. by intros ?? [= ->].
Qed.

(** ** The generator on the configured members *)

Lemma NAMES_NoDup : NoDup NAMES.
Proof. compute_done. Qed.

Lemma NAMES_nonempty : "" ∉ NAMES.
Proof. compute_done. Qed.

(** The two outcomes of [createDerangement(NAMES)]: a validated
    derangement, or the exception of the retry ceiling.  The file is not
    touched. *)
Lemma createDerangement_NAMES w :
  ∃ pos,
    createDerangement NAMES w
    = (Throw NoValidPlan, World (disk w) (random_tape w) pos)
    ∨ ∃ a, createDerangement NAMES w
           = (Ok a, World (disk w) (random_tape w) pos)
           ∧ is_derangement NAMES a
           ∧ validateAssignments (Some (JObj a)) NAMES = Ok tt.
Proof.
  change (createDerangement NAMES w) with
    ((perm <- draw_loop (N.to_nat (MAX_ATTEMPTS + 1)) 0 NAMES ;;
      lift (validateAssignments
              (Some (JObj (build_assignments NAMES perm))) NAMES) ;;;
      ret (build_assignments NAMES perm)) w).
  generalize (N.to_nat (MAX_ATTEMPTS + 1)). intros fuel.
  unfold bind, lift, ret.
  destruct (draw_loop fuel 0 NAMES w) as [r [d t pos]] eqn:Hloop.
  apply draw_loop_spec in Hloop as (Hd & Ht & Hr); [|discriminate].
  cbn [disk random_tape] in Hd, Ht. subst d t. exists pos.
  destruct r as [perm|e]; [right | left; by subst e].
  destruct Hr as [Hperm Hfix].
  pose proof (build_assignments_derangement NAMES perm NAMES_NoDup Hperm Hfix)
    as Hder.
  pose proof (validate_derangement_Ok _ _ NAMES_NoDup NAMES_nonempty Hder)
    as Hvalid.
  exists (build_assignments NAMES perm). by rewrite Hvalid.
Qed.

(** ** Loading and initialising the state *)

Arguments get_prop : simpl never.
Arguments validateAssignments : simpl never.
Arguments createDerangement : simpl never.

Lemma loadState_loaded w : loadState w = (Ok (loaded (disk w)), w).
Proof. destruct w as [[] tape pos]; reflexivity. Qed.

Lemma get_prop_truthy state k :
  truthy (Some state) = true → ∃ v, get_prop (Some state) k = Ok v.
Proof.
  unfold get_prop. destruct state; simpl; try done; eauto.
  all: intros _; case_bool_decide; eauto.
Qed.

Lemma initState_cases forceNew w :
  initState forceNew w =
  if negb forceNew && valid_round (loaded (disk w))
  then (Ok (loaded (disk w)), w)
  else new_round w.
Proof.
  unfold initState, valid_round.
  generalize new_round NAMES. intros fresh names.
  destruct forceNew; [reflexivity|].
  unfold bind at 1. rewrite loadState_loaded.
  generalize (loaded (disk w)). intros state.
  destruct (truthy (Some state)) eqn:Htruthy; [|reflexivity].
  destruct (get_prop_truthy state "assignments" Htruthy) as [a Ha].
  unfold try_catch, bind, lift, ret. rewrite Ha. cbn [negb andb].
  destruct (truthy a); [|reflexivity].
  cbn [negb andb].
  destruct (validateAssignments a names); reflexivity.
Qed.

(** The outcomes of the block that creates a round: the generator gives
    up; or it returns a derangement, and then the round is written and
    returned, unless the file cannot be written. *)
Lemma new_round_cases w :
  ∃ pos,
    new_round w = (Throw NoValidPlan, World (disk w) (random_tape w) pos)
    ∨ ∃ a, createDerangement NAMES w
           = (Ok a, World (disk w) (random_tape w) pos)
           ∧ is_derangement NAMES a
           ∧ validateAssignments (Some (JObj a)) NAMES = Ok tt
           ∧ ((disk w = Blocked
               ∧ new_round w
                 = (Throw IOError, World (disk w) (random_tape w) pos))
              ∨ (disk w ≠ Blocked
                 ∧ new_round w
                   = (Ok (new_state a),
                      World (Stored (new_state a)) (random_tape w) pos))).
Proof.
  destruct (createDerangement_NAMES w)
    as (pos & [Hgen | (a & Hgen & Hder & Hval)]); exists pos.
  - left. unfold new_round, bind. by rewrite Hgen.
  - right. exists a. split_and!; [done..|].
    unfold new_round, bind. rewrite Hgen.
    unfold saveState, fs_writeFileSync, ret. cbn [disk random_tape random_pos].
    destruct (disk w); [right|right|left|right|right]; done.
Qed.

(** Inversion of a successful run [Hinit] of the round-creating block in
    world [w]: names the assignment and what is known of it. *)
Ltac created_in Hinit w a Hder Hval :=
  let H := fresh in
  destruct (new_round_cases w)
    as (? & [H | (a & _ & Hder & Hval & [[_ H] | [_ H]])]);
  rewrite H in Hinit; [done | done |]; injection Hinit as <- <-; clear H.

Lemma initState_new forceNew w :
  forceNew = true ∨ valid_round (loaded (disk w)) = false →
  initState forceNew w = new_round w.
Proof.
  rewrite initState_cases. by intros [-> | ->]; rewrite ?andb_false_r.
Qed.

Lemma initState_kept w :
  valid_round (loaded (disk w)) = true →
  initState false w = (Ok (loaded (disk w)), w).
Proof. rewrite initState_cases. by intros ->. Qed.

(** What a passed validation says about each member. *)

Lemma check_members_Ok a names name :
  check_members a names = Ok tt → name ∈ names →
  ∃ g, get_prop a name = Ok g ∧ truthy g = true
       ∧ same_value_zero g (Some (JStr name)) = false.
Proof.
  induction names as [|n names IH]; intros Hcheck Hin.
  { by apply elem_of_nil in Hin. }
  simpl in Hcheck. unfold rbind in Hcheck.
  destruct (get_prop a n) as [g|] eqn:Hg; [|done].
  destruct (truthy g) eqn:Ht; simpl in Hcheck; [|done].
  destruct (same_value_zero g (Some (JStr n))) eqn:Hs; [done|].
  apply elem_of_cons in Hin as [->|Hin]; eauto.
Qed.

Lemma validateAssignments_Ok_members a names :
  validateAssignments a names = Ok tt → check_members a names = Ok tt.
Proof.
  unfold validateAssignments, rbind.
  destruct (Object_keys a); [|done].
  destruct (negb _); [done|].
  destruct (Object_values a); [|done].
  destruct (negb _); [done|].
  by destruct (check_members a names) as [[]|].
Qed.

Lemma validateAssignments_Ok_giftee a name :
  validateAssignments a NAMES = Ok tt → name ∈ NAMES →
  ∃ g, get_prop a name = Ok g ∧ truthy g = true.
Proof.
  intros Hval Hin. apply validateAssignments_Ok_members in Hval.
  destruct (check_members_Ok _ _ _ Hval Hin) as (g & ? & ? & _). eauto.
Qed.

Lemma valid_round_inv state :
  valid_round state = true →
  ∃ a, get_prop (Some state) "assignments" = Ok a
       ∧ validateAssignments a NAMES = Ok tt.
Proof.
  unfold valid_round. intros [_ H]%andb_true_iff.
  destruct (get_prop (Some state) "assignments") as [a|]; [|done].
  apply andb_true_iff in H as [_ H].
  exists a. split; [done|]. by destruct (validateAssignments a NAMES) as [[]|].
Qed.

(** A validated assignment is a truthy value, and so is the record that
    holds it. *)
Lemma get_prop_Ok_truthy v k g :
  get_prop v k = Ok g → truthy g = true → truthy v = true.
Proof.
  unfold get_prop. destruct v as [[| | |s|l|m]|]; try done.
  - by intros [= <-].
  - by intros [= <-].
  - destruct s; [|done]. simpl. case_bool_decide; intros [= <-]; done.
Qed.

Lemma valid_round_intro state a :
  get_prop (Some state) "assignments" = Ok a →
  validateAssignments a NAMES = Ok tt →
  valid_round state = true.
Proof.
  intros Ha Hval. unfold valid_round. rewrite Ha, Hval.
  destruct (validateAssignments_Ok_giftee a "Anni" Hval) as (g & Hg & Ht).
  { compute_done. }
  pose proof (get_prop_Ok_truthy _ _ _ Hg Ht) as Hta.
  by rewrite Hta, (get_prop_Ok_truthy _ _ _ Ha Hta).
Qed.

(** The round [initState] hands out is the one in the file, and it is
    valid. *)
Lemma new_state_valid a :
  validateAssignments (Some (JObj a)) NAMES = Ok tt →
  valid_round (new_state a) = true.
Proof. intros Hval. by apply (valid_round_intro _ (Some (JObj a))). Qed.

Lemma initState_Ok forceNew w state w' :
  initState forceNew w = (Ok state, w') →
  disk w' = Stored state ∧ valid_round state = true
  ∧ random_tape w' = random_tape w
  ∧ initState false w' = (Ok state, w').
Proof.
  rewrite initState_cases.
  destruct (negb forceNew && valid_round (loaded (disk w))) eqn:Hkeep.
  - intros [= <- <-]. apply andb_true_iff in Hkeep as [_ Hvalid].
    assert (disk w = Stored (loaded (disk w))) as Hdisk.
    { destruct (disk w); try done. }
    split_and!; [done..|by apply initState_kept].
  - intros Hnew. created_in Hnew w a Hder Hval.
    pose proof (new_state_valid a Hval).
    split_and!; [done..|by apply initState_kept].
Qed.

(** ** When the generator gives up *)

(** With random numbers that are all 0.99 the shuffle swaps every
    position with itself, so every pass of the loop ends with the names
    in their own places, and the loop gives up at its ceiling. *)

Lemma swap_same perm i : swap perm i i = perm.
Proof.
  unfold swap. destruct (perm !! i) as [x|] eqn:Hx; [|done].
  by rewrite !(list_insert_id perm i x Hx).
Qed.

Lemma floor_mul_high i : i < 100 → floor_mul (Fraction 99 0) (i + 1) = i.
Proof.
  intros Hi. unfold floor_mul. cbn [numer gap]. symmetry.
  apply (Nat.div_unique _ _ _ (99 - i)); lia.
Qed.

Lemma shuffle_high i perm d pos :
  i < 100 →
  shuffle i perm (World d tape_high pos)
  = (Ok perm, World d tape_high (pos + i)).
Proof.
  revert pos. induction i as [|i IH]; intros pos Hi; simpl.
  - unfold ret. by rewrite Nat.add_0_r.
  - unfold bind, Math_random. simpl.
    change (tape_high pos) with (Fraction 99 0).
    change (S (i + 1)) with (S i + 1).
    rewrite floor_mul_high, swap_same, IH by lia. do 2 f_equal. lia.
Qed.

Lemma has_fixed_point_same names :
  names ≠ [] → has_fixed_point names names = true.
Proof.
  destruct names as [|name names]; [done|]. intros _.
  apply existsb_exists. exists (name, name). split; [by left|].
  by apply bool_decide_eq_true_2.
Qed.

Lemma draw_loop_high fuel attempts names d pos :
  names ≠ [] → length names ≤ 100 →
  (attempts ≤ MAX_ATTEMPTS)%N →
  N.to_nat (MAX_ATTEMPTS + 1 - attempts) ≤ fuel →
  ∃ pos', draw_loop fuel attempts names (World d tape_high pos)
          = (Throw NoValidPlan, World d tape_high pos').
Proof.
  intros Hne Hlen. revert attempts pos.
  induction fuel as [|fuel IH]; intros attempts pos Hle Hfuel.
  { unfold MAX_ATTEMPTS in *. lia. }
  simpl. unfold bind. rewrite shuffle_high by lia.
  destruct (N.ltb_spec MAX_ATTEMPTS (attempts + 1)); [unfold throw; eauto|].
  rewrite has_fixed_point_same by done.
  apply IH; unfold MAX_ATTEMPTS in *; lia.
Qed.

Lemma createDerangement_high d pos :
  ∃ pos', createDerangement NAMES (World d tape_high pos)
          = (Throw NoValidPlan, World d tape_high pos').
Proof.
  change (createDerangement NAMES (World d tape_high pos)) with
    ((perm <- draw_loop (N.to_nat (MAX_ATTEMPTS + 1)) 0 NAMES ;;
      lift (validateAssignments
              (Some (JObj (build_assignments NAMES perm))) NAMES) ;;;
      ret (build_assignments NAMES perm)) (World d tape_high pos)).
  destruct (draw_loop_high (N.to_nat (MAX_ATTEMPTS + 1)) 0 NAMES d pos)
    as [pos' Hloop]; [done | simpl; lia | done | lia |].
  exists pos'. unfold bind. by rewrite Hloop.
Qed.

(** C4, as stated, fails.  There is no state file and [Math.random]
    returns 0.99 every time: [initState] does not produce a round, the
    exception of the generator's retry ceiling reaches the caller. *)
Lemma initState_gives_up_counterexample :
  disk (World NoFile tape_high 0) = NoFile
  ∧ ∃ w', initState false (World NoFile tape_high 0)
          = (Throw NoValidPlan, w').
Proof.
  split; [done|].
  rewrite initState_new by (by right).
  destruct (createDerangement_high NoFile 0) as [pos' Hgen].
  eexists. unfold new_round, bind. by rewrite Hgen.
Qed.

(** C4, amended.  Loading never throws: for a missing, unreadable or
    unparsable file [loadState] returns null.  [initState] does not keep
    what it loaded exactly when that is absent (falsy), has no (truthy)
    [assignments], or has assignments that fail validation; none of
    these reaches the caller.  It then runs the generator on the
    configured members.  If the generator gives up at its retry
    ceiling, that exception reaches the caller; if it returns a
    derangement, the new round is written to the file and returned,
    unless the file cannot be written, and then the error of the write
    reaches the caller. *)
Theorem initState_self_heals w :
  (loadState w = (Ok (loaded (disk w)), w)
   ∧ ((∀ v, disk w ≠ Stored v) → loaded (disk w) = JNull))
  ∧ (valid_round (loaded (disk w)) = false ↔
     truthy (Some (loaded (disk w))) = false
     ∨ ∃ a, get_prop (Some (loaded (disk w))) "assignments" = Ok a
            ∧ (truthy a = false
               ∨ ∃ e, validateAssignments a NAMES = Throw e))
  ∧ (valid_round (loaded (disk w)) = false →
     ∀ r w1, createDerangement NAMES w = (r, w1) →
       match r with
       | Throw e =>
           e = NoValidPlan ∧ initState false w = (Throw NoValidPlan, w1)
       | Ok a =>
           is_derangement NAMES a
           ∧ (disk w = Blocked → initState false w = (Throw IOError, w1))
           ∧ (disk w ≠ Blocked →
              initState false w
              = (Ok (new_state a),
                 World (Stored (new_state a)) (random_tape w1)
                   (random_pos w1)))
       end).
Proof.
  split_and!.
  - apply loadState_loaded.
  - intros Hno. destruct (disk w) as [| | | |v]; try done. by destruct (Hno v).
  - unfold valid_round. generalize (loaded (disk w)). intros state.
    destruct (truthy (Some state)) eqn:Htruthy; cbn [andb].
    + destruct (get_prop_truthy state "assignments" Htruthy) as [a Ha].
      rewrite Ha. split.
      * intros Hinvalid. right. exists a. split; [done|].
        destruct (truthy a); [right|by left].
        destruct (validateAssignments a NAMES) as [[]|e]; [done|eauto].
      * intros [?|(a' & [= <-] & [-> |[e ->]])]; [done..|].
        by rewrite andb_false_r.
    + split; [by left|done].
  - intros Hinvalid r w1 Hgen.
    rewrite initState_new by (by right).
    destruct (createDerangement_NAMES w)
      as (pos & [Hgen' | (a & Hgen' & Hder & _)]);
      rewrite Hgen' in Hgen; injection Hgen as <- <-.
    + split; [done|]. revert Hgen'. unfold new_round.
      generalize (createDerangement NAMES). intros create Hgen'.
      unfold bind. by rewrite Hgen'.
    + split; [done|]. revert Hgen'. unfold new_round.
      generalize (createDerangement NAMES). intros create Hgen'.
      unfold bind. rewrite Hgen'.
      unfold saveState, fs_writeFileSync, ret.
      cbn [disk random_tape random_pos].
      by destruct (disk w).
Qed.

Lemma initState_self_heals_witness :
  initState false (World NoFile tape_zero 0)
  = (Ok (new_state circle), World (Stored (new_state circle)) tape_zero 10).
Proof.
  destruct (initState_self_heals (World NoFile tape_zero 0))
    as (_ & _ & Hheal).
  apply (Hheal eq_refl (Ok circle) (World NoFile tape_zero 10)).
  - vm_compute. reflexivity.
  - discriminate.
Defined.

(** C10.  Of a loaded record only the [assignments] field is validated:
    every persisted record whose assignments validate against [NAMES] is
    returned as it is, whatever its other fields hold or lack; nothing is
    written and nothing is repaired. *)
Theorem initState_validates_assignments_only w state a :
  disk w = Stored state →
  get_prop (Some state) "assignments" = Ok a →
  validateAssignments a NAMES = Ok tt →
  initState false w = (Ok state, w).
Proof.
  intros Hdisk Ha Hval.
  pose proof (valid_round_intro state a Ha Hval) as Hvalid.
  rewrite initState_kept; rewrite Hdisk; done.
Qed.

Lemma initState_validates_assignments_only_witness :
  initState false (World (Stored odd_record) tape_zero 0)
  = (Ok odd_record, World (Stored odd_record) tape_zero 0).
Proof.
  apply (initState_validates_assignments_only _ odd_record
           (Some (JObj circle))).
  - reflexivity.
  - vm_compute. reflexivity.
  - vm_compute. reflexivity.
Defined.

(** C9.  The round [initState] returns maps every configured member to a
    giftee, so the reply "Fuer diesen Namen gibt es keine Zuordnung" of
    the draw route is never sent. *)
Theorem assignment_never_missing :
  (∀ forceNew w state w' name,
     initState forceNew w = (Ok state, w') → name ∈ NAMES →
     ∃ a g, get_prop (Some state) "assignments" = Ok a
            ∧ get_prop a name = Ok g ∧ truthy g = true)
  ∧ (∀ name w, (api_draw name w).1 ≠ BadRequest NoAssignment).
Proof.
  assert (∀ forceNew w state w' name,
     initState forceNew w = (Ok state, w') → name ∈ NAMES →
     ∃ a g, get_prop (Some state) "assignments" = Ok a
            ∧ get_prop a name = Ok g ∧ truthy g = true) as Hgiftee.
  { intros forceNew w state w' name Hinit Hin.
    apply initState_Ok in Hinit as (_ & Hvalid & _).
    apply valid_round_inv in Hvalid as (a & Ha & Hval).
    destruct (validateAssignments_Ok_giftee a name Hval Hin) as (g & ? & ?).
    eauto. }
  split; [done|].
  intros name w. unfold api_draw.
  destruct (negb (truthy name) || negb (Array_includes (JStr <$> NAMES) name))
    eqn:Hcond; [done|].
  destruct name as [[| | |name| |]|]; try done.
  apply orb_false_iff in Hcond as [_ Hin%negb_false_iff].
  assert (name ∈ NAMES) as Hmember.
  { unfold Array_includes in Hin. apply existsb_exists in Hin as (x & Hx & Heq).
    apply list_elem_of_In, list_elem_of_fmap in Hx as (n & -> & Hn).
    simpl in Heq. by apply bool_decide_eq_true in Heq as ->. }
  unfold uncaught. unfold bind at 1.
  destruct (initState false w) as [[state|e] w1] eqn:Hinit; [|done].
  destruct (Hgiftee _ _ _ _ name Hinit Hmember) as (a & g & Ha & Hg & Ht).
  unfold bind, lift, ret. rewrite Ha, Hg, Ht. cbn [negb].
  destruct (get_prop (Some state) "revealed") as [r|]; [|done].
  destruct (includes r name) as [[]|]; [done| |done].
  cbn [negb]. destruct (push_revealed state name) as [state'|]; [|done].
  unfold saveState, fs_writeFileSync. by destruct (disk w1).
Qed.

Lemma assignment_never_missing_witness :
  ∃ a g, get_prop (Some odd_record) "assignments" = Ok a
         ∧ get_prop a "Till" = Ok g ∧ truthy g = true.
Proof.
  destruct assignment_never_missing as [Hgiftee _].
  apply (Hgiftee false (World (Stored odd_record) tape_zero 0) odd_record
           (World (Stored odd_record) tape_zero 0) "Till").
  - apply (initState_kept (World (Stored odd_record) tape_zero 0)).
    vm_compute. reflexivity.
  - compute_done.
Defined.

(** ** Membership tests *)

Lemma same_value_zero_eq a b : same_value_zero a b = true → a = b.
Proof.
  destruct a as [[]|], b as [[]|]; simpl; try done.
  all: by intros ->%bool_decide_eq_true.
Qed.

Lemma same_value_zero_str x n :
  same_value_zero (Some x) (Some (JStr n)) = true ↔ x = JStr n.
Proof.
  split.
  - by intros [= ->]%same_value_zero_eq.
  - intros ->. simpl. by apply bool_decide_eq_true.
Qed.

Lemma Array_includes_str l n :
  Array_includes l (Some (JStr n)) = true ↔ JStr n ∈ l.
Proof.
  unfold Array_includes. rewrite existsb_exists. split.
  - intros (x & Hx & ->%same_value_zero_str). by apply list_elem_of_In.
  - intros Hin. exists (JStr n). split; [by apply list_elem_of_In|].
    by apply same_value_zero_str.
Qed.

Lemma Array_includes_names names v :
  Array_includes (JStr <$> names) v = true ↔
  ∃ n, v = Some (JStr n) ∧ n ∈ names.
Proof.
  unfold Array_includes. rewrite existsb_exists. split.
  - intros (x & Hx & Heq).
    apply list_elem_of_In, list_elem_of_fmap in Hx as (n & -> & Hn).
    apply same_value_zero_eq in Heq as <-. eauto.
  - intros (n & -> & Hn). exists (JStr n). split.
    + apply list_elem_of_In, list_elem_of_fmap. eauto.
    + by apply same_value_zero_str.
Qed.

(** C6.  A name that is not a configured member is refused with
    "Ungueltiger Name" (status 400) in every state of the round, and
    nothing is read or written. *)
Theorem draw_rejects_non_member (name : value) w :
  (∀ n, name = Some (JStr n) → n ∉ NAMES) →
  api_draw name w = (BadRequest InvalidName, w)
  ∧ status (api_draw name w).1 = 400.
Proof.
  intros Hnot.
  assert (api_draw name w = (BadRequest InvalidName, w)) as ->; [|done].
  unfold api_draw.
  destruct (Array_includes (JStr <$> NAMES) name) eqn:Hin.
  - apply Array_includes_names in Hin as (n & -> & Hn).
    by destruct (Hnot n eq_refl).
  - by rewrite orb_true_r.
Qed.

Lemma draw_rejects_non_member_witness :
  api_draw (Some (JStr "Nikolaus")) (World (Stored odd_record) tape_zero 0)
  = (BadRequest InvalidName, World (Stored odd_record) tape_zero 0).
Proof.
  apply (draw_rejects_non_member (Some (JStr "Nikolaus"))).
  intros n [= <-]. compute_done.
Defined.

(** ** The public state *)

Lemma Set_has_Set_add s u v :
  Set_has (Set_add s u) v = Set_has s v || same_value_zero (Some u) (Some v).
Proof.
  unfold Set_add.
  destruct (existsb (λ x, same_value_zero (Some x) (Some u)) s) eqn:Hu.
  - destruct (same_value_zero (Some u) (Some v)) eqn:Huv;
      [|by rewrite orb_false_r].
    apply same_value_zero_eq in Huv as [= ->]. unfold Set_has.
    by rewrite Hu.
  - apply Set_has_app.
Qed.

Lemma Set_has_foldl s l v :
  Set_has (foldl Set_add s l) v
  = Set_has s v || existsb (λ x, same_value_zero (Some x) (Some v)) l.
Proof.
  revert s. induction l as [|u l IH]; intros s; simpl.
  - by rewrite orb_false_r.
  - by rewrite IH, Set_has_Set_add, orb_assoc.
Qed.

Lemma Set_has_new_Set l v : Set_has (new_Set l) v = Array_includes l (Some v).
Proof. unfold new_Set. by rewrite Set_has_foldl. Qed.

(** On names, filtering with the set of the revealed is list difference. *)
Lemma filter_not_revealed (names revealed : list string) :
  List.filter (λ n, negb (Set_has (new_Set (JStr <$> revealed)) n))
    (JStr <$> names)
  = JStr <$> list_difference names revealed.
Proof.
  induction names as [|n names IH]; [done|]. csimpl.
  rewrite IH, Set_has_new_Set.
  destruct (decide_rel elem_of n revealed) as [Hin|Hnot].
  - assert (Array_includes (JStr <$> revealed) (Some (JStr n)) = true) as ->;
      [|done].
    apply Array_includes_names. eauto.
  - destruct (Array_includes (JStr <$> revealed) (Some (JStr n))) eqn:Hinc;
      [|done].
    apply Array_includes_names in Hinc as (n' & [= <-] & Hin). done.
Qed.

Lemma filter_sublist {A} (f : A → bool) (l : list A) :
  List.filter f l `sublist_of` l.
Proof.
  induction l as [|x l IH]; simpl; [done|].
  destruct (f x); by constructor.
Qed.

(** What [getPublicState] computes from the round of [initState]. *)
Lemma getPublicState_Ok w ps w' :
  getPublicState w = (Ok ps, w') →
  ∃ state revealedSet names,
    initState false w = (Ok state, w')
    ∧ get_prop (Some state) "revealed" = Ok (ps_revealed ps)
    ∧ Set_of (ps_revealed ps) = Ok revealedSet
    ∧ get_prop (Some state) "names" = Ok (ps_names ps)
    ∧ ps_names ps = Some (JArr names)
    ∧ ps_availableNames ps
      = List.filter (λ n, negb (Set_has revealedSet n)) names.
Proof.
  unfold getPublicState. generalize (initState false). intros init.
  unfold bind, lift, ret.
  destruct (init w) as [[state|e] w1]; [|done].
  destruct (get_prop (Some state) "revealed") as [revealed|] eqn:Hrev; [|done].
  destruct (Set_of revealed) as [revealedSet|] eqn:Hset; [|done].
  destruct (get_prop (Some state) "names") as [names|] eqn:Hnames; [|done].
  unfold Array_filter.
  destruct names as [[| | | |l|]|]; try done.
  intros [= <- <-]. simpl. exists state, revealedSet, l. by split_and!.
Qed.

Lemma api_state_StateBody w body w' :
  api_state w = (StateBody body, w') →
  ∃ ps, getPublicState w = (Ok ps, w') ∧ body = json_of_public_state ps.
Proof.
  unfold api_state, caught. generalize getPublicState. intros get.
  unfold bind, ret. destruct (get w) as [[ps|e] w1]; [|done].
  intros [= <- <-]. eauto.
Qed.

Lemma lookup_set_field_eq k v (m : gmap string json) :
  m !! k = None → set_field k v m !! k = v.
Proof. destruct v; simpl; [by rewrite lookup_insert_eq | done]. Qed.

Lemma lookup_set_field_ne k j v (m : gmap string json) :
  k ≠ j → set_field k v m !! j = m !! j.
Proof. destruct v; simpl; [by apply lookup_insert_ne | done]. Qed.

Lemma set_field_is_Some k j v (m : gmap string json) :
  is_Some (set_field k v m !! j) → j = k ∨ is_Some (m !! j).
Proof.
  destruct (decide (k = j)) as [->|Hne]; [by left|].
  rewrite lookup_set_field_ne by done. by right.
Qed.

(** C7.  The body of a successful GET /api/state is an object with the
    fields [names], [availableNames] and [revealed] and no other: the
    first and the last are the round's own, [availableNames] is the
    member list without the revealed members, in the order of the member
    list; the assignments are not in it. *)
Theorem public_state_projection w body w' :
  api_state w = (StateBody body, w') →
  ∃ state names available fields,
    initState false w = (Ok state, w')
    ∧ body = JObj fields
    ∧ get_prop (Some state) "names" = Ok (Some (JArr names))
    ∧ fields !! "names" = Some (JArr names)
    ∧ get_prop (Some state) "revealed" = Ok (fields !! "revealed")
    ∧ fields !! "availableNames" = Some (JArr available)
    ∧ available `sublist_of` names
    ∧ (∀ members revealed : list string,
         names = JStr <$> members →
         fields !! "revealed" = Some (JArr (JStr <$> revealed)) →
         available = JStr <$> list_difference members revealed)
    ∧ fields !! "assignments" = None
    ∧ (∀ k, is_Some (fields !! k) →
            k ∈ ["names"; "availableNames"; "revealed"]).
Proof.
  intros (ps & Hget & ->)%api_state_StateBody.
  apply getPublicState_Ok in Hget
    as (state & revealedSet & names & Hinit & Hrev & Hset & Hnames & Hps & Hav).
  destruct ps as [ps_n ps_a ps_r]. simpl in *. subst ps_n.
  set (fields := set_field "names" (Some (JArr names))
    (set_field "availableNames" (Some (JArr ps_a))
       (set_field "revealed" ps_r ∅))).
  assert (fields !! "names" = Some (JArr names)) as Hf_names.
  { unfold fields. rewrite lookup_set_field_eq; [done|].
    by rewrite !lookup_set_field_ne. }
  assert (fields !! "availableNames" = Some (JArr ps_a)) as Hf_avail.
  { unfold fields. rewrite lookup_set_field_ne by done.
    rewrite lookup_set_field_eq; [done|]. by rewrite lookup_set_field_ne. }
  assert (fields !! "revealed" = ps_r) as Hf_rev.
  { unfold fields. rewrite !lookup_set_field_ne by done.
    by rewrite lookup_set_field_eq. }
  assert (fields !! "assignments" = None) as Hf_assign.
  { unfold fields. by rewrite !lookup_set_field_ne. }
  assert (∀ k, is_Some (fields !! k) →
               k ∈ ["names"; "availableNames"; "revealed"]) as Hdom.
  { intros k Hk. unfold fields in Hk.
    apply set_field_is_Some in Hk as [->|Hk]; [by left|].
    apply set_field_is_Some in Hk as [->|Hk]; [by right; left|].
    apply set_field_is_Some in Hk as [->|Hk]; [by do 2 right; left|].
    rewrite lookup_empty in Hk. by destruct Hk. }
  exists state, names, ps_a, fields.
  split; [done|]. split; [reflexivity|]. clearbody fields.
  split; [done|]. split; [done|].
  split; [by rewrite Hf_rev|]. split; [done|].
  split; [rewrite Hav; apply filter_sublist|].
  split; [|done].
  intros members revealed -> Hr. rewrite Hf_rev in Hr. rewrite Hr in Hset.
  assert (revealedSet = new_Set (JStr <$> revealed)) as ->
    by (simpl in Hset; congruence).
  subst ps_a. apply filter_not_revealed.
Qed.

Lemma public_state_projection_witness :
  ∃ available (fields : gmap string json),
    fields !! "availableNames" = Some (JArr available)
    ∧ available = JStr <$> list_difference NAMES ["Ben"]
    ∧ fields !! "assignments" = None.
Proof.
  destruct (public_state_projection sample_world
    (json_of_public_state
       (PublicState (Some (JArr (JStr <$> NAMES)))
          (JStr <$> list_difference NAMES ["Ben"])
          (Some (JArr [JStr "Ben"]))))
    sample_world)
    as (state & names & available & fields & _ & Hbody & _ & Hnames & _
        & Havail & _ & Hdiff & Hassign & _).
  - vm_compute. reflexivity.
  - exists available, fields. split_and!; [done| |done].
    injection Hbody as <-. apply Hdiff.
    + vm_compute in Hnames. by injection Hnames as <-.
    + vm_compute. reflexivity.
Defined.

(** ** Creating a round *)

Lemma get_prop_new_state a :
  get_prop (Some (new_state a)) "names" = Ok (Some (JArr (JStr <$> NAMES)))
  ∧ get_prop (Some (new_state a)) "assignments" = Ok (Some (JObj a))
  ∧ get_prop (Some (new_state a)) "revealed" = Ok (Some (JArr [])).
Proof.
  unfold get_prop, new_state.
  rewrite lookup_insert_eq.
  rewrite !lookup_insert_ne, !lookup_insert_eq by done.
  rewrite !lookup_insert_ne, !lookup_insert_eq by done.
  done.
Qed.

Lemma filter_all names :
  List.filter (λ n, negb (Set_has [] n)) names = names.
Proof. induction names as [|n names IH]; simpl; by f_equal. Qed.

Lemma getPublicState_new_state a w :
  disk w = Stored (new_state a) →
  validateAssignments (Some (JObj a)) NAMES = Ok tt →
  getPublicState w
  = (Ok (PublicState (Some (JArr (JStr <$> NAMES))) (JStr <$> NAMES)
           (Some (JArr []))), w).
Proof.
  intros Hdisk Hval.
  pose proof (initState_kept w) as Hinit. rewrite Hdisk in Hinit.
  specialize (Hinit (new_state_valid a Hval)). simpl loaded in Hinit.
  destruct (get_prop_new_state a) as (Hn & _ & Hr).
  unfold getPublicState. revert Hinit.
  generalize (initState false). intros init Hinit.
  unfold bind. rewrite Hinit. unfold lift, ret. rewrite Hr, Hn.
  unfold Set_of, Array_filter, new_Set. simpl foldl.
  by rewrite filter_all.
Qed.

Lemma api_state_new_state a w :
  disk w = Stored (new_state a) →
  validateAssignments (Some (JObj a)) NAMES = Ok tt →
  api_state w = (StateBody untouched_body, w).
Proof.
  intros Hdisk Hval. pose proof (getPublicState_new_state a w Hdisk Hval) as H.
  unfold api_state, caught. revert H. generalize getPublicState.
  intros get H. unfold bind. by rewrite H.
Qed.

Lemma initState_created forceNew w state w' :
  forceNew = true ∨ valid_round (loaded (disk w)) = false →
  initState forceNew w = (Ok state, w') →
  ∃ a w1, createDerangement NAMES w = (Ok a, w1)
          ∧ state = new_state a ∧ is_derangement NAMES a
          ∧ validateAssignments (Some (JObj a)) NAMES = Ok tt
          ∧ w' = World (Stored state) (random_tape w1) (random_pos w1).
Proof.
  intros Hnew Hinit. rewrite initState_new in Hinit by done.
  destruct (new_round_cases w)
    as (pos & [H | (a & Hgen & Hder & Hval & [[_ H] | [_ H]])]);
    rewrite H in Hinit; [done | done |]. injection Hinit as <- <-.
  exists a. eexists. split; [exact Hgen|]. by split_and!.
Qed.

(** C5.  A round that [initState] creates, because it is forced to or
    because the file holds no valid round, is the record
    [{ names: NAMES, assignments, revealed: [] }] with the mapping the
    generator has just returned for the configured members, a
    derangement of them, and it is what the file then holds.  GET
    /api/state then shows all members available and none revealed.
    POST /api/reset is answered with 200 exactly by creating such a
    round, whatever the file held, so right after a reset the state
    route shows all members available and none revealed. *)
Theorem initState_creates_round forceNew w state w' :
  forceNew = true ∨ valid_round (loaded (disk w)) = false →
  initState forceNew w = (Ok state, w') →
  (∃ a w1, createDerangement NAMES w = (Ok a, w1)
           ∧ is_derangement NAMES a
           ∧ state = new_state a
           ∧ get_prop (Some state) "names"
             = Ok (Some (JArr (JStr <$> NAMES)))
           ∧ get_prop (Some state) "assignments" = Ok (Some (JObj a))
           ∧ get_prop (Some state) "revealed" = Ok (Some (JArr []))
           ∧ w' = World (Stored state) (random_tape w1) (random_pos w1))
  ∧ disk w' = Stored state
  ∧ api_state w' = (StateBody untouched_body, w')
  ∧ (forceNew = true → api_reset w = (ResetBody, w'))
  ∧ (∀ w0 w1, api_reset w0 = (ResetBody, w1) →
       (∃ state1, initState true w0 = (Ok state1, w1))
       ∧ api_state w1 = (StateBody untouched_body, w1)).
Proof.
  intros Hnew Hinit.
  destruct (initState_created _ _ _ _ Hnew Hinit)
    as (a & w1 & Hgen & -> & Hder & Hval & ->).
  split_and!; [|done|by apply (api_state_new_state a)| |].
  - exists a, w1. destruct (get_prop_new_state a) as (? & ? & ?).
    by split_and!.
  - intros ->. unfold api_reset, caught. revert Hinit.
    generalize (initState true). intros init Hinit.
    unfold bind, ret. by rewrite Hinit.
  - clear. intros w0 w1. unfold api_reset, caught. unfold bind.
    destruct (initState true w0) as [[state|e] w2] eqn:Hinit; [|done].
    unfold ret. intros [= <-].
    destruct (initState_created true w0 state w2 ltac:(by left) Hinit)
      as (a & w1 & _ & -> & _ & Hval & ->).
    split; [eauto|]. by apply (api_state_new_state a).
Qed.

Lemma initState_creates_round_witness :
  api_reset sample_world
  = (ResetBody, World (Stored (new_state circle)) tape_zero 10)
  ∧ api_state (World (Stored (new_state circle)) tape_zero 10)
    = (StateBody untouched_body,
       World (Stored (new_state circle)) tape_zero 10).
Proof.
  destruct (initState_creates_round true sample_world (new_state circle)
              (World (Stored (new_state circle)) tape_zero 10))
    as (_ & _ & Hstate & Hreset & _).
  - by left.
  - vm_compute. reflexivity.
  - split; [exact (Hreset eq_refl)|exact Hstate].
Defined.

(** ** Revealing *)

Lemma initState_kept_stored w state :
  disk w = Stored state → valid_round state = true →
  initState false w = (Ok state, w).
Proof. intros Hdisk Hvalid. rewrite initState_kept; by rewrite Hdisk. Qed.

(** A successful draw, step by step. *)
Lemma api_draw_DrawBody name w n giftee already w1 :
  api_draw name w = (DrawBody n giftee already, w1) →
  name = Some (JStr n) ∧ n ∈ NAMES ∧
  ∃ state w0 a revealed,
    initState false w = (Ok state, w0)
    ∧ get_prop (Some state) "assignments" = Ok a
    ∧ get_prop a n = Ok giftee
    ∧ get_prop (Some state) "revealed" = Ok revealed
    ∧ includes revealed n = Ok already
    ∧ if already then w1 = w0
      else ∃ state', push_revealed state n = Ok state'
                     ∧ w1 = World (Stored state') (random_tape w0)
                              (random_pos w0).
Proof.
  unfold api_draw.
  destruct (negb (truthy name) || negb (Array_includes (JStr <$> NAMES) name))
    eqn:Hcond; [done|].
  apply orb_false_iff in Hcond as [_ Hin%negb_false_iff].
  apply Array_includes_names in Hin as (n' & -> & Hn').
  unfold uncaught. generalize (initState false). intros init.
  unfold bind, lift, ret.
  destruct (init w) as [[state|e] w0] eqn:Hinit; [|done].
  destruct (get_prop (Some state) "assignments") as [a|] eqn:Ha; [|done].
  destruct (get_prop a n') as [g|] eqn:Hg; [|done].
  destruct (negb (truthy g)); [done|].
  destruct (get_prop (Some state) "revealed") as [revealed|] eqn:Hr; [|done].
  destruct (includes revealed n') as [[]|] eqn:Hinc; [| |done]; cbn [negb].
  - intros [= <- <- <- <-]. split_and!; [done..|].
    exists state, w0, a, revealed. by split_and!.
  - destruct (push_revealed state n') as [state'|] eqn:Hpush; [|done].
    unfold saveState, fs_writeFileSync.
    destruct (disk w0); try done.
    all: intros [= <- <- <- <-]; split_and!; [done..|].
    all: exists state, w0, a, revealed; split_and!; [done..|]; eauto.
Qed.

(** A draw by a giver the round lists as revealed. *)
Lemma api_draw_again n w state a giftee revealed :
  n ∈ NAMES →
  initState false w = (Ok state, w) →
  get_prop (Some state) "assignments" = Ok a →
  get_prop a n = Ok giftee → truthy giftee = true →
  get_prop (Some state) "revealed" = Ok revealed →
  includes revealed n = Ok true →
  api_draw (Some (JStr n)) w = (DrawBody n giftee true, w).
Proof.
  intros Hn Hinit Ha Hg Ht Hr Hinc. unfold api_draw.
  assert (truthy (Some (JStr n)) = true) as ->.
  { simpl. apply negb_true_iff, bool_decide_eq_false_2. intros ->.
    by apply NAMES_nonempty. }
  assert (Array_includes (JStr <$> NAMES) (Some (JStr n)) = true) as ->.
  { apply Array_includes_names. eauto. }
  cbn [negb orb]. unfold uncaught. revert Hinit.
  generalize (initState false). intros init Hinit.
  unfold bind, lift, ret. by rewrite Hinit, Ha, Hg, Ht, Hr, Hinc.
Qed.

Lemma push_revealed_Ok state n state' :
  push_revealed state n = Ok state' →
  ∃ m l, state = JObj m ∧ m !! "revealed" = Some (JArr l)
         ∧ state' = JObj (<["revealed" := JArr (l ++ [JStr n])]> m).
Proof.
  unfold push_revealed. destruct state as [| | | | |m]; try done.
  destruct (m !! "revealed") as [[| | | |l|]|] eqn:Hm; try done.
  intros [= <-]. eauto.
Qed.

Lemma valid_round_push m l n :
  valid_round (JObj m) = true →
  valid_round (JObj (<["revealed" := JArr (l ++ [JStr n])]> m)) = true.
Proof.
  intros (a & Ha & Hval)%valid_round_inv.
  apply (valid_round_intro _ a); [|done].
  unfold get_prop in *. by rewrite lookup_insert_ne.
Qed.

Lemma initState_revealed_members w state w0 :
  initState false w = (Ok state, w0) →
  length (revealed_members w0) ≤ length (revealed_members w).
Proof.
  rewrite initState_cases.
  destruct (negb false && valid_round (loaded (disk w))) eqn:Hkeep.
  - by intros [= <- <-].
  - intros Hnew. created_in Hnew w a Hder Hval.
    unfold revealed_members, persisted_revealed.
    simpl loaded. unfold new_state. rewrite lookup_insert_eq. simpl. lia.
Qed.

(** *** What the requests other than the reset do to the world *)

Lemma api_state_world w :
  valid_round (loaded (disk w)) = true → (api_state w).2 = w.
Proof.
  intros Hinit%initState_kept. unfold api_state, caught, getPublicState.
  revert Hinit. generalize (initState false). intros init Hinit.
  unfold bind, lift, ret. rewrite Hinit.
  destruct (get_prop _ "revealed") as [revealed|]; [|done].
  destruct (Set_of revealed); [|done].
  destruct (get_prop _ "names") as [names|]; [|done].
  by destruct (Array_filter names _).
Qed.

Lemma api_debug_assignments_world w :
  valid_round (loaded (disk w)) = true → (api_debug_assignments w).2 = w.
Proof.
  intros Hinit%initState_kept. unfold api_debug_assignments, caught.
  revert Hinit. generalize (initState false). intros init Hinit.
  unfold bind, lift, ret. rewrite Hinit.
  by destruct (get_prop _ "assignments").
Qed.

(** A draw in a valid round leaves the world as it is or appends the
    giver to the revealed list of the record. *)
Lemma api_draw_world name w :
  valid_round (loaded (disk w)) = true →
  (api_draw name w).2 = w
  ∨ ∃ m l n,
      loaded (disk w) = JObj m ∧ m !! "revealed" = Some (JArr l)
      ∧ (api_draw name w).2
        = World (Stored (JObj (<["revealed" := JArr (l ++ [JStr n])]> m)))
            (random_tape w) (random_pos w).
Proof.
  intros Hinit%initState_kept. unfold api_draw.
  destruct (negb (truthy name) || negb (Array_includes (JStr <$> NAMES) name));
    [by left|].
  destruct name as [[| | |n| |]|]; try by left.
  unfold uncaught. revert Hinit. generalize (initState false).
  intros init Hinit. unfold bind, lift, ret. rewrite Hinit.
  destruct (get_prop _ "assignments") as [a|]; [|by left].
  destruct (get_prop a n) as [g|]; [|by left].
  destruct (negb (truthy g)); [by left|].
  destruct (get_prop _ "revealed") as [revealed|]; [|by left].
  destruct (includes revealed n) as [[]|]; [by left| |by left]. cbn [negb].
  destruct (push_revealed (loaded (disk w)) n) as [state'|] eqn:Hpush;
    [|by left].
  destruct (push_revealed_Ok _ _ _ Hpush) as (m & l & Hm & Hl & ->).
  unfold saveState, fs_writeFileSync.
  destruct (disk w) as [| | | |v] eqn:Hdisk; try done.
  right. exists m, l, n. by split_and!.
Qed.

Lemma serve_world r w :
  valid_round (loaded (disk w)) = true →
  (serve r w).2 = w
  ∨ ∃ m l n,
      loaded (disk w) = JObj m ∧ m !! "revealed" = Some (JArr l)
      ∧ (serve r w).2
        = World (Stored (JObj (<["revealed" := JArr (l ++ [JStr n])]> m)))
            (random_tape w) (random_pos w).
Proof.
  intros Hvalid. destruct r as [|name|]; simpl.
  - left. by apply api_state_world.
  - by apply api_draw_world.
  - left. by apply api_debug_assignments_world.
Qed.

(** *** A reveal that has been made stays made *)

Lemma revealed_to_draw n giftee w :
  n ∈ NAMES → revealed_to n giftee w →
  api_draw (Some (JStr n)) w = (DrawBody n giftee true, w).
Proof.
  intros Hn (a & revealed & Hvalid & Ha & Hg & Hr & Hinc).
  apply (api_draw_again n w (loaded (disk w)) a giftee revealed);
    try done.
  - by apply initState_kept.
  - apply valid_round_inv in Hvalid as (a' & Ha' & Hval).
    rewrite Ha in Ha'. injection Ha' as <-.
    destruct (validateAssignments_Ok_giftee a n Hval Hn) as (g & Hg' & Htg).
    rewrite Hg in Hg'. by injection Hg' as <-.
Qed.

Lemma revealed_to_serve n giftee r w :
  revealed_to n giftee w → revealed_to n giftee (serve r w).2.
Proof.
  intros (a & revealed & Hvalid & Ha & Hg & Hr & Hinc).
  destruct (serve_world r w Hvalid) as [-> | (m & l & n' & Hm & Hl & ->)].
  { by exists a, revealed. }
  rewrite Hm in *. unfold get_prop in Ha, Hr. rewrite Hl in Hr.
  injection Hr as <-. simpl in Hinc. injection Hinc as Hinc.
  exists a, (Some (JArr (l ++ [JStr n']))). simpl loaded.
  split_and!; [by apply valid_round_push| |done| |].
  - unfold get_prop. by rewrite lookup_insert_ne.
  - unfold get_prop. by rewrite lookup_insert_eq.
  - simpl. f_equal. apply Array_includes_str, elem_of_app. left.
    by apply Array_includes_str.
Qed.

Lemma revealed_to_serve_all n giftee requests w :
  revealed_to n giftee w → revealed_to n giftee (serve_all requests w).
Proof.
  revert w. unfold serve_all.
  induction requests as [|r requests IH]; intros w Hw; [done|].
  simpl. by apply IH, revealed_to_serve.
Qed.

(** C3.  Revealing is idempotent for a giver.  When a reveal succeeds,
    (1) it returns a giftee, with [alreadyRevealed] false if the round
    had to be created for it and if the file listed revealed givers
    without this one; (2) every later reveal for the same name, directly
    after it or after any other requests short of a reset, returns the
    same giftee with [alreadyRevealed] true and changes nothing: however
    often the reveal is repeated, the world stays as the first reveal
    left it; (3) so the list of revealed givers grows by at most one over
    all of them. *)
Theorem reveal_idempotent name w n giftee already w1 :
  api_draw name w = (DrawBody n giftee already, w1) →
  truthy giftee = true
  ∧ (valid_round (loaded (disk w)) = false → already = false)
  ∧ (∀ l, persisted_revealed w = Some (JArr l) → JStr n ∉ l →
       already = false)
  ∧ (∀ requests,
       api_draw name (serve_all requests w1)
       = (DrawBody n giftee true, serve_all requests w1))
  ∧ (∀ k, Nat.iter k (λ w', (api_draw name w').2) w1 = w1)
  ∧ length (revealed_members w1) ≤ S (length (revealed_members w)).
Proof.
  intros Hdraw.
  destruct (api_draw_DrawBody _ _ _ _ _ _ Hdraw)
    as (-> & Hn & state & w0 & a & revealed & Hinit & Ha & Hg & Hr & Hinc
        & Hw1).
  destruct (initState_Ok _ _ _ _ Hinit) as (Hdisk0 & Hvalid & Htape & Hinit0).
  assert (revealed_to n giftee w1) as Hmade.
  { destruct already.
    - subst w1. exists a, revealed. rewrite Hdisk0. by split_and!.
    - destruct Hw1 as (state' & Hpush & ->).
      destruct (push_revealed_Ok _ _ _ Hpush) as (m & l & -> & Hm & ->).
      exists a, (Some (JArr (l ++ [JStr n]))). simpl loaded.
      split_and!; [by apply valid_round_push| |done| |].
      + unfold get_prop in *. by rewrite lookup_insert_ne.
      + unfold get_prop. by rewrite lookup_insert_eq.
      + simpl. f_equal. apply Array_includes_str, elem_of_app.
        right. by left. }
  assert (∀ requests,
            api_draw (Some (JStr n)) (serve_all requests w1)
            = (DrawBody n giftee true, serve_all requests w1)) as Hlater.
  { intros requests.
    by apply revealed_to_draw, revealed_to_serve_all. }
  split_and!; [| | |done| |].
  - apply valid_round_inv in Hvalid as (a' & Ha' & Hval).
    rewrite Ha in Ha'. injection Ha' as <-.
    destruct (validateAssignments_Ok_giftee a n Hval Hn) as (g & Hg' & Htg).
    rewrite Hg in Hg'. by injection Hg' as <-.
  - intros Hinvalid. destruct already; [|done].
    rewrite initState_new in Hinit by (by right).
    created_in Hinit w a0 Hder Hval.
    destruct (get_prop_new_state a0) as (_ & _ & Hr0).
    rewrite Hr in Hr0. injection Hr0 as ->. by simpl in Hinc.
  - intros l Hl Hnot. destruct already; [|done]. exfalso.
    rewrite initState_cases in Hinit.
    destruct (negb false && valid_round (loaded (disk w))) eqn:Hkeep.
    + injection Hinit as <- <-. unfold persisted_revealed in Hl.
      destruct (loaded (disk w)) as [| | | | |m]; try done.
      unfold get_prop in Hr. rewrite Hl in Hr. injection Hr as <-.
      simpl in Hinc. injection Hinc as Hinc.
      by apply Array_includes_str in Hinc.
    + created_in Hinit w a0 Hder Hval.
      destruct (get_prop_new_state a0) as (_ & _ & Hr0).
      rewrite Hr in Hr0. injection Hr0 as ->. by simpl in Hinc.
  - pose proof (Hlater []) as Hagain.
    change (serve_all [] w1) with w1 in Hagain.
    intros k. induction k as [|k IH]; [done|].
    simpl. by rewrite IH, Hagain.
  - pose proof (initState_revealed_members _ _ _ Hinit) as Hle.
    destruct already; [subst w1; lia|].
    destruct Hw1 as (state' & Hpush & ->).
    destruct (push_revealed_Ok _ _ _ Hpush) as (m & l & -> & Hm & ->).
    assert (revealed_members w0 = l) as Hl0.
    { unfold revealed_members, persisted_revealed. rewrite Hdisk0. simpl.
      by rewrite Hm. }
    rewrite Hl0 in Hle.
    assert (revealed_members
              (World (Stored (JObj (<["revealed" := JArr (l ++ [JStr n])]> m)))
                 (random_tape w0) (random_pos w0)) = l ++ [JStr n]) as ->.
    { unfold revealed_members, persisted_revealed. simpl.
      by rewrite lookup_insert_eq. }
    rewrite length_app. simpl. lia.
Qed.

Lemma reveal_idempotent_witness :
  api_draw (Some (JStr "Anni")) (World (Stored sample_round_after) tape_zero 0)
  = (DrawBody "Anni" (Some (JStr "Ben")) true,
     World (Stored sample_round_after) tape_zero 0).
Proof.
  destruct (reveal_idempotent (Some (JStr "Anni")) sample_world "Anni"
              (Some (JStr "Ben")) false
              (World (Stored sample_round_after) tape_zero 0))
    as (_ & _ & _ & Hlater & _).
  - vm_compute. reflexivity.
  - exact (Hlater []).
Defined.

(** ** The revealed givers over a run of requests *)

Lemma serve_step r w :
  valid_round (loaded (disk w)) = true →
  valid_round (loaded (disk (serve r w).2)) = true
  ∧ revealed_members w `prefix_of` revealed_members (serve r w).2.
Proof.
  intros Hvalid.
  destruct (serve_world r w Hvalid) as [-> | (m & l & n & Hm & Hl & ->)];
    [done|].
  split.
  - simpl. rewrite Hm in Hvalid. by apply valid_round_push.
  - unfold revealed_members, persisted_revealed. rewrite Hm, Hl. simpl.
    rewrite lookup_insert_eq. by apply prefix_app_r.
Qed.

(** C8.  Within a round the revealed givers only grow: after any run of
    state reads, debug reads and reveals on a valid round, the round is
    still valid and the list of revealed givers in the file starts with
    the list from before, so whoever was revealed still is.  Only the
    reset, which is not among these requests, empties it. *)
Theorem revealed_monotonic requests w :
  valid_round (loaded (disk w)) = true →
  valid_round (loaded (disk (serve_all requests w))) = true
  ∧ revealed_members w `prefix_of` revealed_members (serve_all requests w)
  ∧ ∀ giver, giver ∈ revealed_members w →
      giver ∈ revealed_members (serve_all requests w).
Proof.
  intros Hvalid.
  assert (valid_round (loaded (disk (serve_all requests w))) = true
          ∧ revealed_members w
            `prefix_of` revealed_members (serve_all requests w)) as [Hv Hp].
  { revert w Hvalid. unfold serve_all.
    induction requests as [|r requests IH]; intros w Hvalid; [done|].
    simpl. destruct (serve_step r w Hvalid) as [Hv1 Hp1].
    destruct (IH _ Hv1) as [Hv2 Hp2]. split; [done|]. by etrans. }
  split_and!; [done..|].
  intros giver Hin. destruct Hp as [k ->]. apply elem_of_app. by left.
Qed.

Lemma revealed_monotonic_witness :
  JStr "Ben"
  ∈ revealed_members
      (serve_all [GetState; Draw (Some (JStr "Anni")); GetDebugAssignments;
                  Draw (Some (JStr "Nikolaus")); Draw (Some (JStr "Anni"))]
         sample_world).
Proof.
  destruct (revealed_monotonic
              [GetState; Draw (Some (JStr "Anni")); GetDebugAssignments;
               Draw (Some (JStr "Nikolaus")); Draw (Some (JStr "Anni"))]
              sample_world) as (_ & _ & Hstay).
  - vm_compute. reflexivity.
  - apply Hstay. vm_compute. left.
Defined.

(** * Further properties of the code *)

(** ** The shuffle and the generator *)

Lemma shuffle_world i perm w :
  ∃ perm',
    shuffle i perm w
    = (Ok perm', World (disk w) (random_tape w) (random_pos w + i)).
Proof.
  revert perm w. induction i as [|i IH]; intros perm w; simpl.
  - exists perm. unfold ret. destruct w; simpl. by rewrite Nat.add_0_r.
  - unfold bind, Math_random.
    destruct (IH (swap perm (S i) (floor_mul (random_tape w (random_pos w))
                                     (S i + 1)))
                (World (disk w) (random_tape w) (S (random_pos w))))
      as [perm' Heq].
    exists perm'. simpl in Heq. rewrite Heq. do 2 f_equal. lia.
Qed.

(** X1.  The Fisher-Yates loop returns a permutation of the names it is
    given, calls [Math.random] once for each position but the first, and
    leaves the state file alone. *)
Theorem shuffle_permutes names w :
  ∃ perm,
    shuffle (length names - 1) names w
    = (Ok perm,
       World (disk w) (random_tape w) (random_pos w + (length names - 1)))
    ∧ perm ≡ₚ names.
Proof.
  destruct names as [|name names].
  - exists []. split; [|done]. simpl. unfold ret. destruct w; simpl.
    by rewrite Nat.add_0_r.
  - apply shuffle_spec. simpl. lia.
Qed.

(** The shuffle reads the random numbers from its position on. *)
Lemma shuffle_tape_ext i perm d tape1 tape2 pos :
  (∀ n, pos ≤ n → tape1 n = tape2 n) →
  (shuffle i perm (World d tape1 pos)).1
  = (shuffle i perm (World d tape2 pos)).1.
Proof.
  revert perm pos. induction i as [|i IH]; intros perm pos Hext; [done|].
  simpl. unfold bind, Math_random. simpl.
  rewrite (Hext pos) by done. apply IH. intros n Hn. apply Hext. lia.
Qed.

(** A random number that makes the shuffle pick [j] at index [i]. *)
Lemma floor_mul_pick j i :
  j ≤ i → floor_mul (Fraction j (i - j)) (i + 1) = j.
Proof.
  intros Hj. unfold floor_mul. cbn [numer gap].
  replace (j + (i - j) + 1) with (i + 1) by lia.
  apply Nat.div_mul. lia.
Qed.

Lemma shuffle_reaches i perm target d pos :
  NoDup perm → i < length perm → target ≡ₚ perm →
  (∀ k, i < k → target !! k = perm !! k) →
  ∃ tape, (shuffle i perm (World d tape pos)).1 = Ok target.
Proof.
  revert perm pos. induction i as [|i IH]; intros perm pos Hnd Hi Hperm Hfix.
  - exists (λ _, Fraction 0 0). simpl. f_equal. symmetry.
    apply list_eq. intros [|k]; [|apply Hfix; lia].
    assert (NoDup target) as Hndt by (by rewrite Hperm).
    destruct (lookup_lt_is_Some_2 target 0) as [x Hx].
    { rewrite Hperm. lia. }
    assert (x ∈ perm) as [j Hj]%list_elem_of_lookup.
    { rewrite <-Hperm. apply list_elem_of_lookup. eauto. }
    destruct j as [|j]; [congruence|].
    rewrite <-Hfix in Hj by lia.
    by pose proof (NoDup_lookup _ _ _ _ Hndt Hx Hj).
  - assert (NoDup target) as Hndt by (by rewrite Hperm).
    destruct (lookup_lt_is_Some_2 target (S i)) as [x Hx].
    { rewrite Hperm. lia. }
    assert (x ∈ perm) as [j Hj]%list_elem_of_lookup.
    { rewrite <-Hperm. apply list_elem_of_lookup. eauto. }
    assert (j ≤ S i) as Hle.
    { destruct (decide (j ≤ S i)) as [|Hgt]; [done|].
      rewrite <-Hfix in Hj by lia.
      pose proof (NoDup_lookup _ _ _ _ Hndt Hx Hj). lia. }
    assert (j < length perm) as Hjlt by (by eapply lookup_lt_Some).
    destruct (IH (swap perm (S i) j) (S pos)) as [tape' Htape'].
    + by rewrite swap_Permutation.
    + rewrite swap_length. lia.
    + by rewrite swap_Permutation.
    + intros k Hk. rewrite swap_lookup by done.
      destruct (decide (k = j)) as [->|Hkj].
      * assert (j = S i) as -> by lia. by rewrite Hx, Hj.
      * destruct (decide (k = S i)) as [->|Hki]; [by rewrite Hx, Hj|].
        apply Hfix. lia.
    + exists (λ n, if decide (n = pos) then Fraction j (S i - j) else tape' n).
      simpl. unfold bind, Math_random. simpl.
      rewrite decide_True by done. rewrite floor_mul_pick by done.
      rewrite <-Htape'. apply shuffle_tape_ext.
      intros n Hn. rewrite decide_False by lia. done.
Qed.

(** X2.  The shuffle can return every permutation of unique names: for
    each there are random numbers that make it the result. *)
Theorem shuffle_reaches_every_permutation names target d pos :
  NoDup names → target ≡ₚ names →
  ∃ tape,
    shuffle (length names - 1) names (World d tape pos)
    = (Ok target, World d tape (pos + (length names - 1))).
Proof.
  intros Hnd Hperm.
  assert (∃ tape,
    (shuffle (length names - 1) names (World d tape pos)).1 = Ok target)
    as [tape Htape].
  { destruct names as [|name names].
    - apply Permutation_nil_r in Hperm as ->. by exists (λ _, Fraction 0 0).
    - apply shuffle_reaches; [done|simpl; lia|done|].
      intros k Hk. simpl in Hk.
      rewrite !lookup_ge_None_2; [done|simpl; lia|rewrite Hperm; simpl; lia]. }
  exists tape.
  destruct (shuffle_world (length names - 1) names (World d tape pos))
    as [perm Hrun].
  rewrite Hrun in Htape. simpl in *. by injection Htape as ->.
Qed.

Lemma shuffle_reaches_every_permutation_witness :
  ∃ tape,
    shuffle 2 ["a"; "b"; "c"] (World NoFile tape 0)
    = (Ok ["c"; "a"; "b"], World NoFile tape 2).
Proof.
  apply (shuffle_reaches_every_permutation ["a"; "b"; "c"] ["c"; "a"; "b"]
           NoFile 0).
  - compute_done.
  - compute_done.
Defined.

(** The exceptions of [validateAssignments] on a plain object. *)
Lemma validateAssignments_errors (a : gmap string json) names e :
  validateAssignments (Some (JObj a)) names = Throw e →
  e = KeyCountMismatch ∨ (∃ name, e = NoGiftee name)
  ∨ (∃ name, e = SelfGift name) ∨ e = DuplicateGiftee.
Proof.
  rewrite validateAssignments_member_order. unfold validate_member_order.
  destruct (negb _); [intros [= <-]; by left|].
  destruct (find _ names) as [name|].
  - destruct (has_giftee a name); intros [= <-]; eauto 6.
  - destruct (giftees_distinct a); [done|]. intros [= <-]. eauto 6.
Qed.

(** X3.  [createDerangement] throws "Zu wenige Namen" exactly for fewer
    than two names, and then it has drawn no random number and touched
    nothing. *)
Theorem createDerangement_too_few names w w' :
  createDerangement names w = (Throw TooFewNames, w') ↔
  length names < 2 ∧ w' = w.
Proof.
  split.
  - destruct names as [|name0 [|name1 [|name2 rest]]].
    + unfold createDerangement, throw. intros [= <-]. simpl. split; [lia|done].
    + unfold createDerangement, throw. intros [= <-]. simpl. split; [lia|done].
    + unfold createDerangement, ret. done.
    + set (names := name0 :: name1 :: name2 :: rest).
      change (createDerangement names w) with
        ((perm <- draw_loop (N.to_nat (MAX_ATTEMPTS + 1)) 0 names ;;
          lift (validateAssignments
                  (Some (JObj (build_assignments names perm))) names) ;;;
          ret (build_assignments names perm)) w).
      generalize (N.to_nat (MAX_ATTEMPTS + 1)). intros fuel.
      unfold bind, lift, ret.
      destruct (draw_loop fuel 0 names w) as [[perm|e] w1] eqn:Hloop.
      * destruct (validateAssignments _ names) as [[]|e] eqn:Hval; [done|].
        intros [= -> <-].
        apply validateAssignments_errors in Hval.
        destruct Hval as [?|[[? ?]|[[? ?]|?]]]; done.
      * apply draw_loop_spec in Hloop as (_ & _ & ->); [|done]. done.
  - intros [Hlen ->].
    destruct names as [|name0 [|name1 rest]]; [done..|]. simpl in Hlen. lia.
Qed.

(** The passes of the retry loop: each costs one shuffle, there are at
    least one and at most as many as the ceiling leaves, and the loop
    gives up exactly when it has used them all. *)
Lemma draw_loop_passes fuel attempts names w r w' :
  (attempts ≤ MAX_ATTEMPTS)%N →
  N.to_nat (MAX_ATTEMPTS + 1 - attempts) ≤ fuel →
  draw_loop fuel attempts names w = (r, w') →
  ∃ k, 1 ≤ k
       ∧ (attempts + N.of_nat k ≤ MAX_ATTEMPTS + 1)%N
       ∧ w' = World (disk w) (random_tape w)
                (random_pos w + k * (length names - 1))
       ∧ (r = Throw NoValidPlan ↔
          (attempts + N.of_nat k = MAX_ATTEMPTS + 1)%N).
Proof.
  revert attempts w.
  induction fuel as [|fuel IH]; intros attempts w Hle Hfuel.
  { unfold MAX_ATTEMPTS in *. lia. }
  simpl. unfold bind.
  destruct (shuffle_world (length names - 1) names w) as [perm ->].
  destruct (N.ltb_spec MAX_ATTEMPTS (attempts + 1)) as [Hmax|Hmax].
  { unfold throw. intros [= <- <-]. exists 1. split_and!; [lia|lia| |].
    - simpl. f_equal. lia.
    - split; [lia|done]. }
  destruct (has_fixed_point perm names).
  - intros Hloop. apply IH in Hloop as (k & Hk & Hsum & -> & Hiff);
      [|lia|unfold MAX_ATTEMPTS in *; lia].
    exists (S k). split_and!; [lia|lia| |].
    + simpl. f_equal. lia.
    + rewrite Hiff. lia.
  - unfold ret. intros [= <- <-]. exists 1. split_and!; [lia|lia| |].
    + simpl. f_equal. lia.
    + split; [done|lia].
Qed.

(** X4.  [createDerangement] never touches the state file, and what it
    takes from [Math.random] is a whole number of shuffles: none for
    fewer than three names; for three or more at least one and at most
    10001, and it gives up with "Konnte keinen gueltigen Wichtel-Plan
    erzeugen" exactly when it has made all 10001. *)
Theorem createDerangement_random_budget names w r w' :
  createDerangement names w = (r, w') →
  ∃ passes,
    (N.of_nat passes ≤ MAX_ATTEMPTS + 1)%N
    ∧ w' = World (disk w) (random_tape w)
             (random_pos w + passes * (length names - 1))
    ∧ (length names < 3 → passes = 0)
    ∧ (3 ≤ length names →
         1 ≤ passes
         ∧ (r = Throw NoValidPlan ↔ N.of_nat passes = (MAX_ATTEMPTS + 1)%N)).
Proof.
  assert (w = World (disk w) (random_tape w) (random_pos w + 0)) as Hw.
  { destruct w; simpl. by rewrite Nat.add_0_r. }
  destruct names as [|name0 [|name1 [|name2 rest]]].
  1-3: unfold createDerangement, throw, ret; intros [= <- <-]; exists 0;
    (split_and!; [done|simpl; exact Hw|done|simpl; lia]).
  set (names := name0 :: name1 :: name2 :: rest).
  change (createDerangement names w) with
    ((perm <- draw_loop (N.to_nat (MAX_ATTEMPTS + 1)) 0 names ;;
      lift (validateAssignments
              (Some (JObj (build_assignments names perm))) names) ;;;
      ret (build_assignments names perm)) w).
  unfold bind at 1.
  destruct (draw_loop _ 0 names w) as [r1 w1] eqn:Hloop.
  apply draw_loop_passes in Hloop as (k & Hk & Hsum & -> & Hiff);
    [|done|unfold MAX_ATTEMPTS; lia].
  intros Hrun. exists k.
  assert (w' = World (disk w) (random_tape w)
                 (random_pos w + k * (length names - 1))
          ∧ (r = Throw NoValidPlan ↔ r1 = Throw NoValidPlan)) as [-> Hr].
  { destruct r1 as [perm|e].
    - unfold bind, lift, ret in Hrun.
      destruct (validateAssignments _ names) as [[]|e] eqn:Hval.
      + injection Hrun as <- <-. split; [done|]. split; done.
      + injection Hrun as <- <-. split; [done|].
        apply validateAssignments_errors in Hval. split; [|done].
        intros [= ->]. destruct Hval as [?|[[? ?]|[[? ?]|?]]]; done.
    - unfold bind in Hrun. injection Hrun as <- <-. split; [reflexivity|].
      split; intros [= ->]; reflexivity. }
  split_and!; [lia|done|simpl; lia|]. intros _. split; [done|].
  rewrite Hr, Hiff. lia.
Qed.

Lemma createDerangement_random_budget_witness :
  ∃ passes,
    (N.of_nat passes ≤ MAX_ATTEMPTS + 1)%N
    ∧ World NoFile tape_zero 2 = World NoFile tape_zero (0 + passes * 2)
    ∧ 1 ≤ passes.
Proof.
  destruct (createDerangement_random_budget ["a"; "b"; "c"]
              (World NoFile tape_zero 0)
              (Ok (<["a" := JStr "b"]> (<["b" := JStr "c"]>
                     (<["c" := JStr "a"]> ∅))))
              (World NoFile tape_zero 2))
    as (passes & Hle & Hw & _ & Hmany).
  - vm_compute. reflexivity.
  - exists passes. split_and!; [done|done|]. apply Hmany. simpl. lia.
Defined.

Lemma fmap_Permutation_inv {A B} (f : A → B) (l : list B) (k : list A) :
  l ≡ₚ f <$> k → ∃ k', l = f <$> k' ∧ k ≡ₚ k'.
Proof. apply Permutation_map_inv. Qed.

Lemma zip_fst_snd {A B} (l : list (A * B)) : zip l.*1 l.*2 = l.
Proof. induction l as [|[a b] l IH]; csimpl; by f_equal. Qed.

Lemma zip_fmap_JStr (names perm : list string) :
  zip names (JStr <$> perm) = prod_map id JStr <$> zip names perm.
Proof.
  revert perm. induction names as [|n names IH]; intros [|p perm]; csimpl;
    [done..|]. by rewrite IH.
Qed.

(** Every derangement of unique names is the mapping built from some
    permutation without a fixed point. *)
Lemma derangement_of_perm names (a : gmap string json) :
  NoDup names → is_derangement names a →
  ∃ perm, perm ≡ₚ names ∧ has_fixed_point perm names = false
          ∧ build_assignments names perm = a.
Proof.
  intros Hnd (Hkeys & Hvals & Hirr).
  symmetry in Hkeys.
  apply fmap_Permutation_inv in Hkeys as (kvs & Hnames & Hkvs).
  assert (kvs.*2 ≡ₚ JStr <$> names) as Hsnd by (by rewrite <-Hkvs).
  apply fmap_Permutation_inv in Hsnd as (perm & Hperm & Hpn).
  assert (length perm = length names) as Hlen by (by rewrite Hpn).
  assert (build_assignments names perm = a) as Ha.
  { unfold build_assignments.
    rewrite foldl_insert_list_to_map by (rewrite fst_zip; [done|lia]).
    rewrite (right_id_L ∅ (∪)), <-zip_fmap_JStr, <-Hperm, Hnames, zip_fst_snd.
    rewrite <-(list_to_map_to_list a). symmetry.
    apply list_to_map_proper; [apply NoDup_fst_map_to_list|done]. }
  exists perm. split_and!; [done| |done].
  destruct (has_fixed_point perm names) eqn:Hfix; [|done].
  apply existsb_exists in Hfix as ([p n] & Hin & Heq).
  apply bool_decide_eq_true in Heq. simpl in Heq. subst p.
  apply list_elem_of_In, list_elem_of_lookup in Hin as [i Hi].
  apply lookup_zip_with_Some in Hi as (? & ? & [= <- <-] & Hp & Hn).
  destruct (Hirr n). rewrite <-Ha.
  apply build_assignments_lookup; [done..|]. eauto.
Qed.

(** One pass of the loop suffices for a permutation without a fixed
    point: some random numbers make the shuffle produce it, and the
    validation accepts the mapping built from it. *)
Lemma createDerangement_run names perm d pos :
  NoDup names → "" ∉ names → 3 ≤ length names →
  perm ≡ₚ names → has_fixed_point perm names = false →
  ∃ tape w',
    createDerangement names (World d tape pos)
    = (Ok (build_assignments names perm), w').
Proof.
  intros Hnd Hne Hlen Hperm Hfix.
  destruct (shuffle_reaches (length names - 1) names perm d pos)
    as [tape Hshuffle]; [done|lia|done| |].
  { intros k Hk. rewrite !lookup_ge_None_2; [done|lia|rewrite Hperm; lia]. }
  exists tape.
  destruct (shuffle_world (length names - 1) names (World d tape pos))
    as [perm' Hworld].
  rewrite Hworld in Hshuffle. simpl in Hshuffle.
  injection Hshuffle as ->.
  assert (createDerangement names (World d tape pos) =
    (perm <- draw_loop (N.to_nat (MAX_ATTEMPTS + 1)) 0 names ;;
     lift (validateAssignments
             (Some (JObj (build_assignments names perm))) names) ;;;
     ret (build_assignments names perm)) (World d tape pos)) as ->.
  { destruct names as [|name0 [|name1 [|name2 rest]]]; simpl in Hlen;
      [lia..|reflexivity]. }
  replace (N.to_nat (MAX_ATTEMPTS + 1)) with (S (N.to_nat MAX_ATTEMPTS))
    by (unfold MAX_ATTEMPTS; lia).
  generalize (N.to_nat MAX_ATTEMPTS). intros fuel.
  unfold bind at 1. cbn [draw_loop]. unfold bind at 1.
  rewrite Hworld.
  change (MAX_ATTEMPTS <? 0 + 1)%N with false. cbv iota.
  rewrite Hfix. unfold ret at 1. unfold bind, lift.
  rewrite validate_derangement_Ok
    by (try apply build_assignments_derangement; done).
  unfold ret. eauto.
Qed.

(** X5.  Every outcome is possible: for unique, non-empty names, two or
    more and none of them "__proto__" (for which line 91 creates no
    key), each derangement of the names is returned by
    [createDerangement] for some sequence of random numbers. *)
Theorem createDerangement_reaches_every_derangement names a d pos :
  NoDup names → "" ∉ names → "__proto__" ∉ names → 2 ≤ length names →
  is_derangement names a →
  ∃ tape w', createDerangement names (World d tape pos) = (Ok a, w').
Proof.
  intros Hnd Hne _ Hlen Hder.
  destruct names as [|name0 [|name1 [|name2 rest]]]; simpl in Hlen;
    [lia|lia| |].
  - exists tape_zero, (World d tape_zero pos).
    unfold createDerangement, ret. do 2 f_equal.
    destruct Hder as (Hkeys & Hvals & Hirr).
    assert (name0 ≠ name1) as Hne01.
    { apply NoDup_cons in Hnd as [Hnd _]. set_solver. }
    assert (∀ k v, a !! k = Some v →
              (k = name0 ∨ k = name1) ∧ (v = JStr name0 ∨ v = JStr name1))
      as Hin.
    { intros k v Hkv. apply elem_of_map_to_list in Hkv. split.
      - assert (k ∈ (map_to_list a).*1) as Hk
          by (apply list_elem_of_fmap; by exists (k, v)).
        rewrite Hkeys in Hk. set_solver.
      - assert (v ∈ (map_to_list a).*2) as Hv
          by (apply list_elem_of_fmap; by exists (k, v)).
        rewrite Hvals in Hv. set_solver. }
    assert (∀ k, k ∈ [name0; name1] → is_Some (a !! k)) as Hsome.
    { intros k Hk. rewrite <-Hkeys in Hk.
      apply list_elem_of_fmap in Hk as ([k' v] & -> & Hkv).
      apply elem_of_map_to_list in Hkv. eauto. }
    apply map_eq. intros k. apply option_eq. intros v.
    destruct (decide (k = name1)) as [->|Hk1].
    { rewrite lookup_insert_eq.
      destruct (Hsome name1) as [v1 Hv1]; [set_solver|].
      destruct (Hin _ _ Hv1) as [_ [->| ->]]; [|by destruct (Hirr name1)].
      rewrite Hv1. done. }
    rewrite lookup_insert_ne by done.
    destruct (decide (k = name0)) as [->|Hk0].
    { rewrite lookup_insert_eq.
      destruct (Hsome name0) as [v0 Hv0]; [set_solver|].
      destruct (Hin _ _ Hv0) as [_ [->| ->]]; [by destruct (Hirr name0)|].
      rewrite Hv0. done. }
    rewrite lookup_insert_ne, lookup_empty by done.
    split; [done|]. intros Hkv. destruct (Hin _ _ Hkv) as [[?|?] _]; done.
  - set (names := name0 :: name1 :: name2 :: rest) in *.
    destruct (derangement_of_perm names a Hnd Hder)
      as (perm & Hperm & Hfix & <-).
    apply createDerangement_run; [done|done|simpl; lia|done|done].
Qed.

Lemma createDerangement_reaches_every_derangement_witness :
  ∃ tape w',
    createDerangement ["a"; "b"; "c"] (World NoFile tape 0)
    = (Ok (build_assignments ["a"; "b"; "c"] ["b"; "c"; "a"]), w').
Proof.
  apply createDerangement_reaches_every_derangement.
  - compute_done.
  - compute_done.
  - compute_done.
  - simpl. lia.
  - apply build_assignments_derangement.
    + compute_done.
    + compute_done.
    + vm_compute. reflexivity.
Defined.

Lemma dom_build_assignments (kvs : list (string * string))
    (acc : gmap string json) :
  dom (foldl (λ acc kv, <[kv.1 := JStr kv.2]> acc) acc kvs)
  = list_to_set kvs.*1 ∪ dom acc.
Proof.
  revert acc. induction kvs as [|[k v] kvs IH]; intros acc; csimpl.
  - set_solver.
  - rewrite IH, dom_insert_L. set_solver.
Qed.

Lemma size_list_to_set_le (l : list string) :
  size (list_to_set l : gset string) ≤ length l.
Proof.
  induction l as [|x l IH]; [by rewrite list_to_set_nil, size_empty|].
  rewrite list_to_set_cons, length_cons.
  rewrite size_union_alt, size_singleton.
  pose proof (subseteq_size (list_to_set l ∖ {[x]}) (list_to_set l : gset string)
                ltac:(set_solver)). lia.
Qed.

Lemma size_list_to_set_NoDup (l : list string) :
  size (list_to_set l : gset string) = length l → NoDup l.
Proof.
  induction l as [|x l IH]; [constructor|].
  rewrite list_to_set_cons, length_cons. intros Hsize.
  pose proof (size_list_to_set_le l) as Hle.
  destruct (decide (x ∈ l)) as [Hin|Hnot].
  - replace ({[x]} ∪ list_to_set l : gset string) with
      (list_to_set l : gset string) in Hsize by set_solver. lia.
  - rewrite size_union, size_singleton in Hsize by set_solver.
    constructor; [done|]. apply IH. lia.
Qed.

(** A mapping built for [names] has as many keys as there are names only
    if no name occurs twice. *)
Lemma build_assignments_size names perm :
  length perm = length names →
  size (build_assignments names perm) = length names → NoDup names.
Proof.
  intros Hlen Hsize. apply size_list_to_set_NoDup.
  rewrite <-Hsize, <-size_dom. unfold build_assignments.
  rewrite dom_build_assignments, dom_empty_L, (right_id_L ∅ (∪)).
  rewrite fst_zip by lia. done.
Qed.

(** The rotation of the names by one place has no fixed point. *)
Lemma rotation_has_no_fixed_point name rest :
  NoDup (name :: rest) → rest ≠ [] →
  has_fixed_point (rest ++ [name]) (name :: rest) = false.
Proof.
  intros Hnd Hrest.
  destruct (has_fixed_point _ _) eqn:Hfix; [exfalso|done].
  apply existsb_exists in Hfix as ([p n] & Hin & Heq).
  apply bool_decide_eq_true in Heq. simpl in Heq. subst p.
  apply list_elem_of_In, list_elem_of_lookup in Hin as [i Hi].
  apply lookup_zip_with_Some in Hi as (? & ? & [= <- <-] & Hp & Hn).
  destruct (decide (i < length rest)) as [Hi|Hi].
  - rewrite lookup_app_l in Hp by done.
    assert ((name :: rest) !! S i = Some n) as Hp' by done.
    pose proof (NoDup_lookup _ _ _ _ Hnd Hn Hp'). lia.
  - rewrite lookup_app_r in Hp by lia.
    apply list_lookup_singleton_Some in Hp as [Hi0 <-].
    assert ((name :: rest) !! 0 = Some name) as Hp' by done.
    pose proof (NoDup_lookup _ _ _ _ Hnd Hn Hp').
    destruct rest; simpl in *; [done|lia].
Qed.

(** X6.  When [createDerangement] can succeed at all.  For three or more
    names, a run that returns a mapping shows that no name occurs twice
    and none is the empty string; and for such names, none of them
    "__proto__" (for which line 91 creates no key), some sequence of
    random numbers does make it return a mapping. *)
Theorem createDerangement_can_succeed names d pos :
  3 ≤ length names →
  ((∃ tape a w', createDerangement names (World d tape pos) = (Ok a, w'))
   → NoDup names ∧ "" ∉ names)
  ∧ (NoDup names → "" ∉ names → "__proto__" ∉ names →
     ∃ tape a w', createDerangement names (World d tape pos) = (Ok a, w')).
Proof.
  intros Hlen. split.
  - intros (tape & a & w' & Hrun).
    assert (createDerangement names (World d tape pos) =
      (perm <- draw_loop (N.to_nat (MAX_ATTEMPTS + 1)) 0 names ;;
       lift (validateAssignments
               (Some (JObj (build_assignments names perm))) names) ;;;
       ret (build_assignments names perm)) (World d tape pos)) as Hcode.
    { destruct names as [|name0 [|name1 [|name2 rest]]]; simpl in Hlen;
        [lia..|reflexivity]. }
    rewrite Hcode in Hrun. clear Hcode.
    revert Hrun. generalize (N.to_nat (MAX_ATTEMPTS + 1)). intros fuel Hrun.
    apply bind_inv_Ok in Hrun as (perm & w1 & Hloop & Hrun).
    apply bind_inv_Ok in Hrun as ([] & w2 & Hval & Hrun).
    apply draw_loop_spec in Hloop as (_ & _ & Hperm & Hfix);
      [|intros ->; simpl in Hlen; lia].
    unfold lift in Hval. injection Hval as Hval _.
    rewrite validateAssignments_member_order in Hval.
    apply validate_member_order_Ok in Hval as (Hsize & Hok & _).
    assert (length perm = length names) as Hlp by (by rewrite Hperm).
    assert (NoDup names) as Hnd by (by apply (build_assignments_size _ perm)).
    split; [done|]. intros Hin. rewrite <-Hperm in Hin.
    apply list_elem_of_lookup in Hin as [i Hi].
    destruct (lookup_lt_is_Some_2 names i) as [k Hk].
    { rewrite <-Hlp. by apply lookup_lt_Some in Hi. }
    assert (build_assignments names perm !! k = Some (JStr "")) as Hgiftee.
    { apply build_assignments_lookup; [done..|]. eauto. }
    assert (member_ok (build_assignments names perm) k = true) as Hmember.
    { apply Hok. by apply list_elem_of_lookup_2 in Hk. }
    unfold member_ok, has_giftee in Hmember. rewrite Hgiftee in Hmember.
    done.
  - intros Hnd Hne _.
    destruct names as [|name rest]; [simpl in Hlen; lia|].
    destruct (createDerangement_run (name :: rest) (rest ++ [name]) d pos)
      as (tape & w' & Hrun); [done|done|done| | |by eauto].
    + by rewrite Permutation_app_comm.
    + apply rotation_has_no_fixed_point; [done|].
      destruct rest; [simpl in Hlen; lia|done].
Qed.

Lemma createDerangement_can_succeed_witness :
  ∃ tape a w',
    createDerangement ["a"; "b"; "c"] (World NoFile tape 0) = (Ok a, w').
Proof.
  destruct (createDerangement_can_succeed ["a"; "b"; "c"] NoFile 0)
    as [_ Hcan]; [simpl; lia|].
  apply Hcan; compute_done.
Defined.

(** X7.  The two-name shortcut is not validated.  For two names
    [createDerangement] returns the exchange without drawing and without
    calling [validateAssignments], which would accept that mapping
    exactly when the two names differ and neither is empty. *)
Theorem createDerangement_two_names_unchecked name0 name1 w :
  let a : gmap string json :=
    <[name1 := JStr name0]> (<[name0 := JStr name1]> ∅) in
  createDerangement [name0; name1] w = (Ok a, w)
  ∧ (validateAssignments (Some (JObj a)) [name0; name1] = Ok tt
     ↔ name0 ≠ name1 ∧ name0 ≠ "" ∧ name1 ≠ "").
Proof.
  intros a. split; [done|]. split.
  - rewrite validateAssignments_member_order.
    intros (Hsize & Hok & _)%validate_member_order_Ok.
    assert (name0 ≠ name1) as Hne.
    { intros ->. unfold a in Hsize. rewrite insert_insert_eq in Hsize.
      rewrite insert_empty, map_size_singleton in Hsize. done. }
    split; [done|].
    pose proof (Hok name0 ltac:(set_solver)) as H0.
    pose proof (Hok name1 ltac:(set_solver)) as H1.
    unfold member_ok, has_giftee, a in H0, H1.
    rewrite lookup_insert_ne, lookup_insert_eq in H0 by done.
    rewrite lookup_insert_eq in H1.
    split; intros ->; done.
  - intros (Hne & H0 & H1). apply validate_derangement_Ok.
    + apply NoDup_cons. split; [set_solver|]. apply NoDup_singleton.
    + set_solver.
    + by apply swap_pair_derangement.
Qed.

(** ** What the validator accepts and what it throws *)

Lemma same_value_zero_sym a b : same_value_zero a b = same_value_zero b a.
Proof.
  destruct a as [[]|], b as [[]|]; simpl; try done;
    apply bool_decide_ext; naive_solver.
Qed.

(** [new Set(l)] keeps every element of [l] exactly when no two of them
    are the same value. *)
Lemma foldl_Set_add_full s l :
  length (foldl Set_add s l) = length s + length l ↔
  (∀ x, x ∈ l → Set_has s x = false)
  ∧ (∀ i j x y, i < j → l !! i = Some x → l !! j = Some y →
       same_value_zero (Some x) (Some y) = false).
Proof.
  revert s. induction l as [|v l IH]; intros s; simpl.
  { split; [|lia]. intros _. split; [by intros x ?%elem_of_nil|done]. }
  pose proof (foldl_Set_add_length (Set_add s v) l) as Hle.
  destruct (Set_has s v) eqn:Hv.
  - assert (Set_add s v = s) as Hsame
      by (unfold Set_add; unfold Set_has in Hv; by rewrite Hv).
    rewrite Hsame in *. split; [lia|]. intros [Hfresh _].
    rewrite Hfresh in Hv by left. done.
  - assert (Set_add s v = s ++ [v]) as Hadd
      by (unfold Set_add; unfold Set_has in Hv; by rewrite Hv).
    rewrite Hadd in *. clear Hle.
    assert (length s + S (length l) = length (s ++ [v]) + length l) as ->
      by (rewrite length_app; simpl; lia).
    rewrite IH. split.
    + intros [Hfresh Hpair]. split.
      * intros x [->|Hx]%elem_of_cons; [done|].
        specialize (Hfresh x Hx). rewrite Set_has_app in Hfresh.
        by apply orb_false_elim in Hfresh as [? _].
      * intros i [|j] x y Hij Hi Hj; [lia|]. simpl in Hj.
        destruct i as [|i]; simpl in Hi.
        -- injection Hi as <-.
           assert (y ∈ l) as Hy by (apply list_elem_of_lookup; eauto).
           specialize (Hfresh y Hy). rewrite Set_has_app in Hfresh.
           by apply orb_false_elim in Hfresh as [_ ?].
        -- apply (Hpair i j); [lia|done..].
    + intros [Hfresh Hpair]. split.
      * intros x Hx. rewrite Set_has_app.
        rewrite Hfresh by (by right). simpl.
        apply list_elem_of_lookup in Hx as [j Hj].
        apply (Hpair 0 (S j)); [lia|done..].
      * intros i j x y Hij Hi Hj. apply (Hpair (S i) (S j)); [lia|done..].
Qed.

(** Check 5 passes exactly when no two keys have the same giftee. *)
Lemma giftees_distinct_pairwise (a : gmap string json) :
  giftees_distinct a = true ↔
  ∀ k1 k2 v1 v2, k1 ≠ k2 → a !! k1 = Some v1 → a !! k2 = Some v2 →
    same_value_zero (Some v1) (Some v2) = false.
Proof.
  unfold giftees_distinct, new_Set. rewrite bool_decide_eq_true.
  pose proof (foldl_Set_add_full [] (map_to_list a).*2) as [Hto Hfrom].
  split.
  - intros Hlen k1 k2 v1 v2 Hne H1 H2. destruct (Hto Hlen) as [_ Hpair].
    apply elem_of_map_to_list, list_elem_of_lookup in H1 as [i1 Hi1].
    apply elem_of_map_to_list, list_elem_of_lookup in H2 as [i2 Hi2].
    assert (i1 ≠ i2) by (intros ->; congruence).
    assert ((map_to_list a).*2 !! i1 = Some v1) as Hv1
      by (by rewrite list_lookup_fmap, Hi1).
    assert ((map_to_list a).*2 !! i2 = Some v2) as Hv2
      by (by rewrite list_lookup_fmap, Hi2).
    destruct (decide (i1 < i2)).
    + by apply (Hpair i1 i2).
    + rewrite same_value_zero_sym. apply (Hpair i2 i1); [lia|done..].
  - intros Hpair. apply Hfrom. split; [done|]. intros i j x y Hij Hi Hj.
    rewrite list_lookup_fmap in Hi, Hj.
    destruct (map_to_list a !! i) as [[k1 x']|] eqn:Hi'; [|done].
    destruct (map_to_list a !! j) as [[k2 y']|] eqn:Hj'; [|done].
    simpl in Hi, Hj. injection Hi as ->. injection Hj as ->.
    apply (Hpair k1 k2).
    + intros ->.
      assert ((map_to_list a).*1 !! i = Some k2) as H1
        by (by rewrite list_lookup_fmap, Hi').
      assert ((map_to_list a).*1 !! j = Some k2) as H2
        by (by rewrite list_lookup_fmap, Hj').
      pose proof (NoDup_lookup _ _ _ _ (NoDup_fst_map_to_list a) H1 H2). lia.
    + apply elem_of_map_to_list, list_elem_of_lookup. eauto.
    + apply elem_of_map_to_list, list_elem_of_lookup. eauto.
Qed.

Lemma check_members_errors v names e :
  check_members v names = Throw e →
  (e = TypeError ∧ (v = None ∨ v = Some JNull))
  ∨ ∃ name, name ∈ names ∧ (e = NoGiftee name ∨ e = SelfGift name).
Proof.
  induction names as [|name names IH]; simpl; [done|].
  destruct (get_prop v name) as [giftee|e'] eqn:Hget; simpl.
  - destruct (truthy giftee); simpl.
    + destruct (same_value_zero giftee _).
      * intros [= <-]. right. exists name. split; [left|by right].
      * intros [H|(n & Hn & H)]%IH; [by left|].
        right. exists n. split; [by right|done].
    + intros [= <-]. right. exists name. split; [left|by left].
  - intros [= <-]. left.
    unfold get_prop in Hget.
    destruct v as [[]|]; try done; try (by case_bool_decide);
      injection Hget as <-; eauto.
Qed.

Lemma length_chars s : length (chars s) = String.length s.
Proof.
  unfold chars. rewrite length_fmap.
  induction s as [|c s IH]; simpl; by f_equal.
Qed.

Lemma length_index_keys n : length (index_keys n) = n.
Proof. unfold index_keys. by rewrite length_fmap, length_seq. Qed.

(** The values of any value are as many as its keys. *)
Lemma Object_keys_values_length v keys :
  Object_keys v = Ok keys →
  ∃ values, Object_values v = Ok values ∧ length values = length keys.
Proof.
  destruct v as [[]|]; simpl; intros [= <-]; eexists; (split; [done|]).
  - done.
  - done.
  - by rewrite length_chars, length_index_keys.
  - by rewrite length_index_keys.
  - by rewrite !length_fmap.
Qed.

(** X8.  The exceptions of [validateAssignments], whatever it is given.
    It never throws "Anzahl der Werte stimmt nicht": a value has as many
    values as keys, so the second check cannot fail once the first has
    passed.  It throws a TypeError exactly for [undefined] and [null];
    otherwise the exception is the key count, a member without giftee,
    a member who is their own giftee, or the duplicate giftee. *)
Theorem validateAssignments_exceptions v names e :
  validateAssignments v names = Throw e →
  e ≠ ValueCountMismatch
  ∧ (e = TypeError ↔ v = None ∨ v = Some JNull)
  ∧ (e = TypeError ∨ e = KeyCountMismatch ∨ e = DuplicateGiftee
     ∨ ∃ name, name ∈ names ∧ (e = NoGiftee name ∨ e = SelfGift name)).
Proof.
  intros Hthrow.
  assert ((e = TypeError ∧ (v = None ∨ v = Some JNull))
          ∨ (e ≠ TypeError ∧ v ≠ None ∧ v ≠ Some JNull
             ∧ (e = KeyCountMismatch ∨ e = DuplicateGiftee
                ∨ ∃ name, name ∈ names
                          ∧ (e = NoGiftee name ∨ e = SelfGift name))))
    as Hcases.
  { unfold validateAssignments in Hthrow.
    destruct (Object_keys v) as [keys|e'] eqn:Hkeys; simpl in Hthrow.
    - assert (v ≠ None ∧ v ≠ Some JNull) as [Hundef Hnull]
        by (by destruct v as [[]|]).
      destruct (Object_keys_values_length v keys Hkeys)
        as (values & Hvalues & Hlen).
      rewrite Hvalues in Hthrow. simpl in Hthrow.
      case_bool_decide as Hcount; simpl in Hthrow.
      + rewrite bool_decide_eq_true_2 in Hthrow by congruence.
        simpl in Hthrow.
        destruct (check_members v names) as [[]|e'] eqn:Hmembers;
          simpl in Hthrow.
        * destruct (negb _); [|done]. injection Hthrow as <-.
          right. split_and!; [done..|]. by right; left.
        * injection Hthrow as <-.
          apply check_members_errors in Hmembers
            as [[_ [?|?]]|(name & Hin & Hname)]; [done..|].
          right. split_and!; [|done..|].
          -- by destruct Hname as [-> | ->].
          -- right. right. eauto.
      + injection Hthrow as <-. right. split_and!; [done..|]. by left.
    - injection Hthrow as <-. left.
      destruct v as [[]|]; simpl in Hkeys; try done;
        injection Hkeys as <-; eauto. }
  destruct Hcases as [[-> Hv]|(Hne & Hundef & Hnull & Hrest)].
  - split_and!; [done| |by left]. done.
  - split_and!.
    + destruct Hrest as [-> | [-> | (name & _ & [-> | ->])]]; done.
    + split; [done|]. by intros [?|?].
    + by right.
Qed.

Lemma validateAssignments_exceptions_witness :
  TypeError ≠ ValueCountMismatch
  ∧ (TypeError = TypeError ↔ undefined = None ∨ undefined = Some JNull).
Proof.
  destruct (validateAssignments_exceptions undefined NAMES TypeError)
    as (Hcount & Htype & _); [reflexivity|]. by split.
Defined.

(** X9.  On the mappings a round can hold, from members to members,
    the validator accepts exactly the derangements of the names, for
    names that are unique, not empty and none of those that objects
    inherit. *)
Theorem validateAssignments_accepts_derangements names
    (a : gmap string json) :
  NoDup names → "" ∉ names → plain_names names →
  (∀ k v, a !! k = Some v → ∃ g, v = JStr g ∧ g ∈ names) →
  validateAssignments (Some (JObj a)) names = Ok tt ↔ is_derangement names a.
Proof.
  intros Hnd Hne _ Hmembers. split; [|by apply validate_derangement_Ok].
  rewrite validateAssignments_member_order.
  intros (Hsize & Hok & Hdistinct)%validate_member_order_Ok.
  assert ((map_to_list a).*1 ≡ₚ names) as Hkeys.
  { symmetry. apply submseteq_length_Permutation.
    - apply NoDup_submseteq; [done|]. intros name Hname.
      destruct (member_ok_is_Some a name (Hok name Hname)) as [v Hv].
      apply list_elem_of_fmap. exists (name, v). split; [done|].
      by apply elem_of_map_to_list.
    - by rewrite Object_keys_length, Hsize. }
  split_and!; [done| |].
  - apply submseteq_length_Permutation.
    + apply NoDup_submseteq.
      * apply NoDup_alt. intros i j v Hi Hj.
        rewrite list_lookup_fmap in Hi, Hj.
        destruct (map_to_list a !! i) as [[k1 v1]|] eqn:Hi'; [|done].
        destruct (map_to_list a !! j) as [[k2 v2]|] eqn:Hj'; [|done].
        simpl in Hi, Hj. injection Hi as ->. injection Hj as ->.
        assert (a !! k1 = Some v) as H1
          by (apply elem_of_map_to_list, list_elem_of_lookup; eauto).
        assert (a !! k2 = Some v) as H2
          by (apply elem_of_map_to_list, list_elem_of_lookup; eauto).
        destruct (Hmembers _ _ H1) as (g & -> & _).
        destruct (decide (k1 = k2)) as [->|Hk].
        -- assert ((map_to_list a).*1 !! i = Some k2) as Hk1
             by (by rewrite list_lookup_fmap, Hi').
           assert ((map_to_list a).*1 !! j = Some k2) as Hk2
             by (by rewrite list_lookup_fmap, Hj').
           apply (NoDup_lookup _ _ _ _ (NoDup_fst_map_to_list a) Hk1 Hk2).
        -- by rewrite (giftees_distinct_false a k1 k2 g) in Hdistinct.
      * intros v Hv. apply list_elem_of_fmap in Hv as ([k v'] & -> & Hkv).
        apply elem_of_map_to_list, Hmembers in Hkv as (g & -> & Hg).
        simpl. by apply list_elem_of_fmap_2.
    + by rewrite Object_values_length, length_fmap, Hsize.
  - intros k Hk.
    assert (k ∈ names) as Hin.
    { rewrite <-Hkeys. apply list_elem_of_fmap. exists (k, JStr k).
      split; [done|]. by apply elem_of_map_to_list. }
    apply Hok in Hin. unfold member_ok, self_gift in Hin.
    rewrite Hk in Hin. simpl in Hin.
    rewrite bool_decide_eq_true_2 in Hin by done.
    by rewrite andb_false_r in Hin.
Qed.

Lemma validateAssignments_accepts_derangements_witness :
  validateAssignments
    (Some (JObj (build_assignments ["a"; "b"; "c"] ["b"; "c"; "a"])))
    ["a"; "b"; "c"] = Ok tt
  ↔ is_derangement ["a"; "b"; "c"]
      (build_assignments ["a"; "b"; "c"] ["b"; "c"; "a"]).
Proof.
  apply validateAssignments_accepts_derangements.
  - compute_done.
  - compute_done.
  - unfold plain_names. compute_done.
  - intros k v Hkv.
    apply build_assignments_lookup in Hkv as (i & p & Hk & Hp & ->);
      [|compute_done|done].
    exists p. split; [done|].
    do 3 (destruct i as [|i]; [injection Hp as <-; compute_done|]). done.
Defined.

(** X10.  The validator does not ask that a giftee is a member.  Take a
    valid derangement and replace one member's giftee by any non-empty
    string that is no member's name: [validateAssignments] still
    accepts the mapping, which is no derangement of the names any more
    (somebody receives nothing). *)
Theorem validateAssignments_ignores_membership names
    (a : gmap string json) k g :
  NoDup names → "" ∉ names → is_derangement names a →
  k ∈ names → g ∉ names → g ≠ "" →
  validateAssignments (Some (JObj (<[k := JStr g]> a))) names = Ok tt
  ∧ ¬ is_derangement names (<[k := JStr g]> a).
Proof.
  intros Hnd Hne Hder Hk Hg Hg'.
  pose proof (validate_derangement_Ok a names Hnd Hne Hder) as Hvalid.
  rewrite validateAssignments_member_order in Hvalid.
  apply validate_member_order_Ok in Hvalid as (Hsize & Hok & Hdistinct).
  destruct Hder as (Hkeys & Hvals & Hirr).
  assert (∀ k' v, a !! k' = Some v → ∃ g', v = JStr g' ∧ g' ∈ names)
    as Hmembers.
  { intros k' v Hkv. apply elem_of_map_to_list in Hkv.
    assert (v ∈ (map_to_list a).*2) as Hv
      by (apply list_elem_of_fmap; by exists (k', v)).
    rewrite Hvals in Hv. apply list_elem_of_fmap in Hv as (g' & -> & ?).
    eauto. }
  split.
  - rewrite validateAssignments_member_order.
    apply validate_member_order_Ok. split_and!.
    + destruct (member_ok_is_Some a k (Hok k Hk)) as [v Hv].
      rewrite map_size_insert_Some by eauto. done.
    + intros name Hname. unfold member_ok, has_giftee, self_gift.
      destruct (decide (name = k)) as [->|Hnk].
      * rewrite lookup_insert_eq. simpl.
        rewrite bool_decide_eq_false_2 by done.
        rewrite bool_decide_eq_false_2 by (intros ->; done). done.
      * rewrite lookup_insert_ne by done. by apply Hok.
    + apply giftees_distinct_pairwise. intros k1 k2 v1 v2 Hk12 H1 H2.
      destruct (decide (k1 = k)) as [->|Hk1].
      * rewrite lookup_insert_eq in H1. injection H1 as <-.
        rewrite lookup_insert_ne in H2 by done.
        destruct (Hmembers _ _ H2) as (g2 & -> & Hg2). simpl.
        apply bool_decide_eq_false_2. by intros ->.
      * rewrite lookup_insert_ne in H1 by done.
        destruct (decide (k2 = k)) as [->|Hk2].
        -- rewrite lookup_insert_eq in H2. injection H2 as <-.
           destruct (Hmembers _ _ H1) as (g1 & -> & Hg1). simpl.
           apply bool_decide_eq_false_2. by intros <-.
        -- rewrite lookup_insert_ne in H2 by done.
           by apply (proj1 (giftees_distinct_pairwise a) Hdistinct k1 k2).
  - intros (_ & Hvals' & _).
    assert (JStr g ∈ (map_to_list (<[k := JStr g]> a)).*2) as Hin.
    { apply list_elem_of_fmap. exists (k, JStr g). split; [done|].
      apply elem_of_map_to_list. by rewrite lookup_insert_eq. }
    rewrite Hvals' in Hin. apply list_elem_of_fmap in Hin as (g' & [= <-] & ?).
    done.
Qed.

Lemma validateAssignments_ignores_membership_witness :
  validateAssignments
    (Some (JObj (<["a" := JStr "z"]>
                   (build_assignments ["a"; "b"; "c"] ["b"; "c"; "a"]))))
    ["a"; "b"; "c"] = Ok tt.
Proof.
  apply (validateAssignments_ignores_membership ["a"; "b"; "c"]).
  - compute_done.
  - compute_done.
  - apply build_assignments_derangement; compute_done.
  - compute_done.
  - compute_done.
  - done.
Defined.

Lemma index_of_key_None k n :
  (∀ i, i < n → pretty i ≠ k) → index_of_key k n = None.
Proof.
  intros Hk. unfold index_of_key.
  destruct (find _ _) as [i|] eqn:Hfind; [exfalso|done].
  apply find_some in Hfind as [Hin Hi].
  apply bool_decide_eq_true in Hi.
  apply in_seq in Hin. apply (Hk i); [lia|done].
Qed.

(** In the embedding an array or a string has its indices and [length]
    and nothing else, so of the values that validate only a plain object
    has a giftee for a name that is neither. *)
Lemma validated_is_object v names name :
  name ∈ names → name ≠ "length" →
  (∀ i, i < length names → pretty i ≠ name) →
  validateAssignments v names = Ok tt →
  ∃ a : gmap string json, v = Some (JObj a).
Proof.
  intros Hin Hlength Hindex Hvalid.
  assert (names ≠ []) as Hnames by (intros ->; by apply elem_of_nil in Hin).
  pose proof (validateAssignments_Ok_members v names Hvalid) as Hmembers.
  destruct (check_members_Ok v names name Hmembers Hin)
    as (giftee & Hget & Htruthy & _).
  unfold validateAssignments in Hvalid.
  destruct v as [[|b|z|s|l|a]|]; simpl in Hvalid; try done.
  - case_bool_decide as Hcount; [|done]. by destruct names.
  - case_bool_decide as Hcount; [|done]. by destruct names.
  - case_bool_decide as Hcount; [|done]. rewrite length_index_keys in Hcount.
    unfold get_prop in Hget. rewrite bool_decide_eq_false_2 in Hget by done.
    rewrite Hcount, index_of_key_None in Hget by done.
    injection Hget as <-. done.
  - case_bool_decide as Hcount; [|done]. rewrite length_index_keys in Hcount.
    unfold get_prop in Hget. rewrite bool_decide_eq_false_2 in Hget by done.
    rewrite Hcount, index_of_key_None in Hget by done.
    injection Hget as <-. done.
  - eauto.
Qed.

Lemma Anni_no_index i : i < length NAMES → pretty i ≠ "Anni".
Proof.
  intros Hi. simpl in Hi.
  do 11 (destruct i as [|i]; [vm_compute; discriminate|]). lia.
Qed.

(** X11.  What validates against the configured members is a plain
    object: an array, a string, a number or a boolean in the place of
    the mapping is rejected (it has no property named like the first
    member), [undefined] and [null] make the check throw. *)
Theorem validateAssignments_plain_object v :
  validateAssignments v NAMES = Ok tt →
  ∃ a : gmap string json, v = Some (JObj a).
Proof.
  apply (validated_is_object v NAMES "Anni");
    [compute_done | done | apply Anni_no_index].
Qed.

Lemma validateAssignments_plain_object_witness :
  ∃ a : gmap string json, Some (JObj circle) = Some (JObj a).
Proof.
  apply validateAssignments_plain_object. vm_compute. reflexivity.
Defined.

(** ** Rounds that are kept *)

(** The assignments of a round [initState] keeps are a plain object. *)
Lemma valid_round_assignments state :
  valid_round state = true →
  ∃ a : gmap string json,
    get_prop (Some state) "assignments" = Ok (Some (JObj a))
    ∧ validateAssignments (Some (JObj a)) NAMES = Ok tt.
Proof.
  intros (v & Hget & Hvalid)%valid_round_inv.
  destruct (validated_is_object v NAMES "Anni") as [a ->];
    [compute_done|done|apply Anni_no_index|done|]. eauto.
Qed.

(** The giftees of two members of a kept round are not the same value. *)
Lemma valid_round_giftees_differ (a : gmap string json) n1 n2 g1 g2 :
  validateAssignments (Some (JObj a)) NAMES = Ok tt →
  n1 ∈ NAMES → n2 ∈ NAMES → n1 ≠ n2 →
  get_prop (Some (JObj a)) n1 = Ok g1 → get_prop (Some (JObj a)) n2 = Ok g2 →
  same_value_zero g1 g2 = false.
Proof.
  intros Hvalid H1 H2 Hne Hg1 Hg2.
  rewrite validateAssignments_member_order in Hvalid.
  apply validate_member_order_Ok in Hvalid as (_ & Hok & Hdistinct).
  unfold get_prop in Hg1, Hg2. injection Hg1 as <-. injection Hg2 as <-.
  destruct (member_ok_is_Some a n1 (Hok n1 H1)) as [v1 Hv1].
  destruct (member_ok_is_Some a n2 (Hok n2 H2)) as [v2 Hv2].
  rewrite Hv1, Hv2.
  by apply (proj1 (giftees_distinct_pairwise a) Hdistinct n1 n2).
Qed.

(** What a request other than the reset leaves as it is in a kept
    round. *)
Lemma serve_keeps r w :
  valid_round (loaded (disk w)) = true →
  get_prop (Some (loaded (disk (serve r w).2))) "assignments"
  = get_prop (Some (loaded (disk w))) "assignments"
  ∧ get_prop (Some (loaded (disk (serve r w).2))) "names"
    = get_prop (Some (loaded (disk w))) "names"
  ∧ random_tape (serve r w).2 = random_tape w
  ∧ random_pos (serve r w).2 = random_pos w.
Proof.
  intros Hvalid.
  destruct (serve_world r w Hvalid) as [-> | (m & l & n & Hm & Hl & ->)];
    [done|].
  rewrite Hm. simpl. unfold get_prop.
  by rewrite !lookup_insert_ne.
Qed.

Lemma serve_all_keeps requests w :
  valid_round (loaded (disk w)) = true →
  valid_round (loaded (disk (serve_all requests w))) = true
  ∧ get_prop (Some (loaded (disk (serve_all requests w)))) "assignments"
    = get_prop (Some (loaded (disk w))) "assignments"
  ∧ get_prop (Some (loaded (disk (serve_all requests w)))) "names"
    = get_prop (Some (loaded (disk w))) "names"
  ∧ random_tape (serve_all requests w) = random_tape w
  ∧ random_pos (serve_all requests w) = random_pos w.
Proof.
  revert w. induction requests as [|r requests IH]; intros w Hvalid; [done|].
  change (serve_all (r :: requests) w)
    with (serve_all requests (serve r w).2).
  destruct (serve_step r w Hvalid) as [Hvalid' _].
  destruct (serve_keeps r w Hvalid) as (Ha & Hn & Ht & Hp).
  destruct (IH _ Hvalid') as (? & Ha' & Hn' & Ht' & Hp').
  split_and!; [done|congruence..].
Qed.

(** X12.  A round stays as it is until a reset.  Once the file holds a
    record [initState] keeps, the requests other than the reset leave
    its assignments and its names as they are, and none of them draws a
    random number. *)
Theorem round_fixed_until_reset requests w :
  valid_round (loaded (disk w)) = true →
  get_prop (Some (loaded (disk (serve_all requests w)))) "assignments"
  = get_prop (Some (loaded (disk w))) "assignments"
  ∧ get_prop (Some (loaded (disk (serve_all requests w)))) "names"
    = get_prop (Some (loaded (disk w))) "names"
  ∧ random_tape (serve_all requests w) = random_tape w
  ∧ random_pos (serve_all requests w) = random_pos w.
Proof. intros Hvalid. by apply serve_all_keeps. Qed.

Lemma round_fixed_until_reset_witness :
  get_prop (Some (loaded (disk
    (serve_all [Draw (Some (JStr "Anni")); GetState; Draw (Some (JStr "Till"))]
       sample_world)))) "assignments"
  = Ok (Some (JObj circle)).
Proof.
  destruct (round_fixed_until_reset
              [Draw (Some (JStr "Anni")); GetState; Draw (Some (JStr "Till"))]
              sample_world) as (Hsame & _).
  - vm_compute. reflexivity.
  - rewrite Hsame. vm_compute. reflexivity.
Defined.

(** The world after a draw that was answered holds a kept round with
    the assignments the answer was read from. *)
Lemma api_draw_after name w n giftee already w1 :
  api_draw name w = (DrawBody n giftee already, w1) →
  n ∈ NAMES
  ∧ valid_round (loaded (disk w1)) = true
  ∧ ∃ a : gmap string json,
      get_prop (Some (loaded (disk w1))) "assignments" = Ok (Some (JObj a))
      ∧ validateAssignments (Some (JObj a)) NAMES = Ok tt
      ∧ get_prop (Some (JObj a)) n = Ok giftee.
Proof.
  intros (_ & Hn & state & w0 & a & revealed & Hinit & Ha & Hg & _ & _ & Hw1)
    %api_draw_DrawBody.
  apply initState_Ok in Hinit as (Hdisk & Hvalid & _).
  destruct (valid_round_assignments state Hvalid) as (a' & Ha' & Hval).
  rewrite Ha in Ha'. injection Ha' as ->.
  split; [done|].
  destruct already.
  - subst w1. rewrite Hdisk. simpl. eauto 6.
  - destruct Hw1 as (state' & Hpush & ->). simpl.
    apply push_revealed_Ok in Hpush as (m & l & -> & Hl & ->).
    split; [by apply valid_round_push|].
    exists a'. split_and!; [|done..].
    unfold get_prop in *. by rewrite lookup_insert_ne.
Qed.

(** X13.  Nobody draws their own name: the giftee a draw answers with
    is never the name of the giver. *)
Theorem draw_never_own_name name w n giftee already w1 :
  api_draw name w = (DrawBody n giftee already, w1) →
  same_value_zero giftee (Some (JStr n)) = false
  ∧ giftee ≠ Some (JStr n).
Proof.
  intros (Hn & _ & a & _ & Hvalid & Hg)%api_draw_after.
  apply validateAssignments_Ok_members in Hvalid.
  destruct (check_members_Ok _ _ n Hvalid Hn) as (g & Hg' & _ & Hself).
  rewrite Hg in Hg'. injection Hg' as <-.
  split; [done|]. intros ->. simpl in Hself.
  by rewrite bool_decide_eq_true_2 in Hself.
Qed.

Lemma draw_never_own_name_witness :
  same_value_zero (Some (JStr "Ben")) (Some (JStr "Anni")) = false
  ∧ Some (JStr "Ben") ≠ Some (JStr "Anni").
Proof.
  apply (draw_never_own_name (Some (JStr "Anni")) sample_world "Anni"
           (Some (JStr "Ben")) false
           (World (Stored sample_round_after) tape_zero 0)).
  vm_compute. reflexivity.
Defined.

(** X14.  Within a round no two givers draw the same giftee: the
    answers to two different members, with any requests other than a
    reset in between, carry giftees that are not the same value, so
    never the same name. *)
Theorem distinct_givers_distinct_giftees name1 name2 n1 n2 g1 g2
    already1 already2 requests w w1 w2 :
  api_draw name1 w = (DrawBody n1 g1 already1, w1) →
  api_draw name2 (serve_all requests w1) = (DrawBody n2 g2 already2, w2) →
  n1 ≠ n2 →
  same_value_zero g1 g2 = false
  ∧ ∀ s, g1 = Some (JStr s) → g2 ≠ Some (JStr s).
Proof.
  intros (Hn1 & Hvalid1 & a & Ha & Hval & Hg1)%api_draw_after Hdraw2 Hne.
  destruct (serve_all_keeps requests w1 Hvalid1) as (Hvalid & Hsame & _).
  rewrite Ha in Hsame.
  apply api_draw_DrawBody in Hdraw2
    as (_ & Hn2 & state & w0 & a2 & _ & Hinit & Ha2 & Hg2 & _).
  rewrite (initState_kept _ Hvalid) in Hinit. injection Hinit as <- <-.
  rewrite Hsame in Ha2. injection Ha2 as <-.
  assert (same_value_zero g1 g2 = false) as Hdiff
    by (by apply (valid_round_giftees_differ a n1 n2)).
  split; [done|]. intros s -> ->. simpl in Hdiff.
  by rewrite bool_decide_eq_true_2 in Hdiff.
Qed.

Lemma distinct_givers_distinct_giftees_witness :
  same_value_zero (Some (JStr "Ben")) (Some (JStr "Dustin")) = false.
Proof.
  apply (distinct_givers_distinct_giftees
           (Some (JStr "Anni")) (Some (JStr "Till")) "Anni" "Till"
           (Some (JStr "Ben")) (Some (JStr "Dustin")) false false
           [GetState; Draw (Some (JStr "Anni"))] sample_world
           (World (Stored sample_round_after) tape_zero 0)
           (World (Stored
              (JObj (<["revealed" :=
                         JArr [JStr "Ben"; JStr "Anni"; JStr "Till"]]>
                     (<["assignments" := JObj circle]>
                      (<["names" := JArr (JStr <$> NAMES)]> ∅)))))
              tape_zero 0)).
  - vm_compute. reflexivity.
  - vm_compute. reflexivity.
  - done.
Defined.

(** X15.  What a successful [initState] leaves behind: the file holds
    the record it returned, [initState] keeps that record, and calling
    it again, any number of times, returns the same record and changes
    nothing. *)
Theorem initState_settles forceNew w state w' :
  initState forceNew w = (Ok state, w') →
  disk w' = Stored state
  ∧ valid_round state = true
  ∧ initState false w' = (Ok state, w')
  ∧ ∀ k, Nat.iter k (λ w0, (initState false w0).2) w' = w'.
Proof.
  intros (Hdisk & Hvalid & _ & Hagain)%initState_Ok.
  split_and!; [done..|].
  induction k as [|k IH]; [done|].
  rewrite Nat.iter_succ, IH. revert Hagain.
  generalize (initState false). by intros init ->.
Qed.

Lemma initState_settles_witness :
  initState false (World (Stored (new_state circle)) tape_zero 10)
  = (Ok (new_state circle), World (Stored (new_state circle)) tape_zero 10).
Proof.
  destruct (initState_settles true sample_world (new_state circle)
              (World (Stored (new_state circle)) tape_zero 10))
    as (_ & _ & Hagain & _).
  - vm_compute. reflexivity.
  - exact Hagain.
Defined.

(** ** The routes on the rounds the server writes *)

(** The three outcomes of [initState]: an exception (of the retry
    ceiling or of the write) with the file as it was, the record of the
    file kept, or a new round written. *)
Lemma initState_outcomes forceNew w :
  (∃ e pos, initState forceNew w
            = (Throw e, World (disk w) (random_tape w) pos))
  ∨ (forceNew = false ∧ valid_round (loaded (disk w)) = true
     ∧ initState forceNew w = (Ok (loaded (disk w)), w))
  ∨ (∃ a pos,
       initState forceNew w
       = (Ok (new_state a), World (Stored (new_state a)) (random_tape w) pos)
       ∧ is_derangement NAMES a
       ∧ validateAssignments (Some (JObj a)) NAMES = Ok tt).
Proof.
  rewrite initState_cases.
  destruct (negb forceNew && valid_round (loaded (disk w))) eqn:Hkeep.
  - apply andb_true_iff in Hkeep as [Hf%negb_true_iff Hvalid].
    right. left. done.
  - destruct (new_round_cases w)
      as (pos & [H | (a & _ & Hder & Hval & [[_ H] | [_ H]])]).
    + left. eauto.
    + left. eauto.
    + right. right. eauto 6.
Qed.

Lemma get_prop_server_round a revealed :
  get_prop (Some (server_round a revealed)) "names"
  = Ok (Some (JArr (JStr <$> NAMES)))
  ∧ get_prop (Some (server_round a revealed)) "assignments"
    = Ok (Some (JObj a))
  ∧ get_prop (Some (server_round a revealed)) "revealed"
    = Ok (Some (JArr (JStr <$> revealed))).
Proof.
  unfold get_prop, server_round.
  rewrite lookup_insert_eq.
  rewrite !lookup_insert_ne, !lookup_insert_eq by done.
  rewrite !lookup_insert_ne, !lookup_insert_eq by done.
  done.
Qed.

Lemma server_round_valid a revealed :
  is_derangement NAMES a → valid_round (server_round a revealed) = true.
Proof.
  intros Hder. apply (valid_round_intro _ (Some (JObj a))).
  - apply get_prop_server_round.
  - apply validate_derangement_Ok;
      [apply NAMES_NoDup|apply NAMES_nonempty|done].
Qed.

Lemma well_formed_disk w w' :
  disk w' = disk w → well_formed w → well_formed w'.
Proof. intros Hdisk (a & revealed & H). exists a, revealed. by rewrite Hdisk. Qed.

Lemma well_formed_valid w :
  well_formed w → valid_round (loaded (disk w)) = true.
Proof.
  intros (a & revealed & -> & Hder & _). by apply server_round_valid.
Qed.

(** In a derangement every member has a giftee, another member. *)
Lemma derangement_giftee names (a : gmap string json) n :
  is_derangement names a → n ∈ names →
  ∃ g, a !! n = Some (JStr g) ∧ g ∈ names ∧ g ≠ n.
Proof.
  intros (Hkeys & Hvals & Hirr) Hn. rewrite <-Hkeys in Hn.
  apply list_elem_of_fmap in Hn as ([k v] & -> & Hkv). simpl.
  assert (v ∈ (map_to_list a).*2) as Hv
    by (apply list_elem_of_fmap; by exists (k, v)).
  rewrite Hvals in Hv. apply list_elem_of_fmap in Hv as (g & -> & Hg).
  apply elem_of_map_to_list in Hkv.
  exists g. split_and!; [done..|]. intros ->. by destruct (Hirr k).
Qed.

Lemma api_state_server_round w a revealed :
  disk w = Stored (server_round a revealed) → is_derangement NAMES a →
  api_state w
  = (StateBody (json_of_public_state
       (PublicState (Some (JArr (JStr <$> NAMES)))
          (JStr <$> list_difference NAMES revealed)
          (Some (JArr (JStr <$> revealed))))), w).
Proof.
  intros Hdisk Hder.
  pose proof (initState_kept_stored w _ Hdisk
                (server_round_valid a revealed Hder)) as Hinit.
  destruct (get_prop_server_round a revealed) as (Hn & _ & Hr).
  unfold api_state, caught, getPublicState. revert Hinit.
  generalize (initState false). intros init Hinit.
  unfold bind, lift, ret. rewrite Hinit, Hr, Hn.
  unfold Set_of, Array_filter. by rewrite filter_not_revealed.
Qed.

Lemma api_debug_assignments_server_round w a revealed :
  disk w = Stored (server_round a revealed) → is_derangement NAMES a →
  api_debug_assignments w = (DebugBody (Some (JObj a)), w).
Proof.
  intros Hdisk Hder.
  pose proof (initState_kept_stored w _ Hdisk
                (server_round_valid a revealed Hder)) as Hinit.
  destruct (get_prop_server_round a revealed) as (_ & Ha & _).
  unfold api_debug_assignments, caught. revert Hinit.
  generalize (initState false). intros init Hinit.
  unfold bind, lift, ret. by rewrite Hinit, Ha.
Qed.

Lemma push_revealed_server_round a revealed n :
  push_revealed (server_round a revealed) n
  = Ok (server_round a (revealed ++ [n])).
Proof.
  unfold push_revealed, server_round.
  rewrite lookup_insert_eq, insert_insert_eq, fmap_app. done.
Qed.

Lemma api_draw_server_round w a revealed n :
  disk w = Stored (server_round a revealed) → is_derangement NAMES a →
  n ∈ NAMES →
  ∃ g, a !! n = Some (JStr g) ∧ g ∈ NAMES ∧ g ≠ n
       ∧ api_draw (Some (JStr n)) w
         = (DrawBody n (Some (JStr g)) (bool_decide (n ∈ revealed)),
            World (Stored (server_round a
                     (if bool_decide (n ∈ revealed) then revealed
                      else revealed ++ [n])))
              (random_tape w) (random_pos w)).
Proof.
  intros Hdisk Hder Hn.
  destruct (derangement_giftee NAMES a n Hder Hn) as (g & Hg & Hgin & Hgn).
  exists g. split_and!; [done..|].
  pose proof (initState_kept_stored w _ Hdisk
                (server_round_valid a revealed Hder)) as Hinit.
  destruct (get_prop_server_round a revealed) as (_ & Ha & Hr).
  unfold api_draw.
  assert (truthy (Some (JStr n)) = true) as ->.
  { simpl. apply negb_true_iff, bool_decide_eq_false_2. intros ->.
    by apply NAMES_nonempty. }
  assert (Array_includes (JStr <$> NAMES) (Some (JStr n)) = true) as ->.
  { apply Array_includes_names. eauto. }
  cbn [negb orb]. unfold uncaught. revert Hinit.
  generalize (initState false). intros init Hinit.
  unfold bind, lift, ret. rewrite Hinit, Ha.
  assert (get_prop (Some (JObj a)) n = Ok (Some (JStr g))) as ->
    by (unfold get_prop; by rewrite Hg).
  assert (truthy (Some (JStr g)) = true) as ->.
  { simpl. apply negb_true_iff, bool_decide_eq_false_2. intros ->.
    by apply NAMES_nonempty. }
  cbn [negb]. rewrite Hr. unfold includes.
  assert (Array_includes (JStr <$> revealed) (Some (JStr n))
          = bool_decide (n ∈ revealed)) as ->.
  { case_bool_decide as Hin.
    - apply Array_includes_str. by apply list_elem_of_fmap_2.
    - apply not_true_is_false. intros Hinc%Array_includes_str.
      apply list_elem_of_fmap in Hinc as (n' & [= <-] & ?). done. }
  destruct (bool_decide (n ∈ revealed)); cbn [negb].
  - destruct w; simpl in *. by rewrite Hdisk.
  - rewrite push_revealed_server_round.
    unfold saveState, fs_writeFileSync. by rewrite Hdisk.
Qed.

(** What a request other than the reset does after [initState]. *)
Lemma serve_init_Ok r w state w' :
  initState false w = (Ok state, w') →
  serve r w = serve r w' ∨ serve r w = (BadRequest InvalidName, w).
Proof.
  intros Hinit.
  pose proof (initState_Ok _ _ _ _ Hinit) as (_ & _ & _ & Hagain).
  revert Hinit Hagain.
  destruct r as [|name|]; simpl.
  - left. unfold api_state, caught, getPublicState. revert Hinit Hagain.
    generalize (initState false). intros init H1 H2.
    unfold bind. by rewrite H1, H2.
  - unfold api_draw.
    destruct (negb (truthy name)
              || negb (Array_includes (JStr <$> NAMES) name)); [by right|].
    destruct name as [[| | |n| |]|]; try by right.
    left. unfold uncaught. revert Hinit Hagain.
    generalize (initState false). intros init H1 H2.
    unfold bind. by rewrite H1, H2.
  - left. unfold api_debug_assignments, caught. revert Hinit Hagain.
    generalize (initState false). intros init H1 H2.
    unfold bind. by rewrite H1, H2.
Qed.

Lemma serve_init_Throw r w e w' :
  initState false w = (Throw e, w') →
  (status (serve r w).1 = 500 ∧ (serve r w).2 = w')
  ∨ serve r w = (BadRequest InvalidName, w).
Proof.
  destruct r as [|name|]; simpl.
  - left. unfold api_state, caught, getPublicState. revert H.
    generalize (initState false). intros init H.
    unfold bind. by rewrite H.
  - unfold api_draw.
    destruct (negb (truthy name)
              || negb (Array_includes (JStr <$> NAMES) name)); [by right|].
    destruct name as [[| | |n| |]|]; try by right.
    left. unfold uncaught. revert H.
    generalize (initState false). intros init H.
    unfold bind. by rewrite H.
  - left. unfold api_debug_assignments, caught. revert H.
    generalize (initState false). intros init H.
    unfold bind. by rewrite H.
Qed.

Lemma api_reset_cases w :
  (∃ pos, api_reset w
          = (ServerError, World (disk w) (random_tape w) pos))
  ∨ (∃ a pos,
       api_reset w
       = (ResetBody, World (Stored (new_state a)) (random_tape w) pos)
       ∧ is_derangement NAMES a).
Proof.
  unfold api_reset, caught.
  destruct (initState_outcomes true w)
    as [(e & pos & H)|[(? & _)|(a & pos & H & Hder & _)]]; [|done|].
  - left. exists pos. revert H. generalize (initState true). intros init H.
    unfold bind. by rewrite H.
  - right. exists a, pos. split; [|done].
    revert H. generalize (initState true). intros init H.
    unfold bind, ret. by rewrite H.
Qed.

(** A request on a well-formed round is answered with 200, unless it is
    a draw for somebody who is no member, and leaves a well-formed
    round. *)
Lemma serve_well_formed r w :
  well_formed w →
  well_formed (serve r w).2
  ∧ (status (serve r w).1 = 200
     ∨ ∀ w0, serve r w0 = (BadRequest InvalidName, w0)).
Proof.
  intros Hwf. pose proof Hwf as (a & revealed & Hdisk & Hder & Hnd & Hsub).
  destruct r as [|name|]; simpl.
  - rewrite (api_state_server_round w a revealed) by done.
    split; [done|by left].
  - destruct (Array_includes (JStr <$> NAMES) name) eqn:Hname.
    + apply Array_includes_names in Hname as (n & -> & Hn).
      destruct (api_draw_server_round w a revealed n Hdisk Hder Hn)
        as (g & _ & _ & _ & ->).
      split; [|by left]. simpl.
      exists a. case_bool_decide as Hin.
      * exists revealed. done.
      * exists (revealed ++ [n]). split_and!; [done..| |].
        -- apply NoDup_app. split_and!; [done| |apply NoDup_singleton].
           intros x Hx ->%list_elem_of_singleton. done.
        -- intros x [Hx| ->%list_elem_of_singleton]%elem_of_app; auto.
    + assert (∀ w0, api_draw name w0 = (BadRequest InvalidName, w0)) as Hbad.
      { intros w0. unfold api_draw. rewrite Hname. by rewrite orb_true_r. }
      rewrite Hbad. split; [done|by right].
  - rewrite (api_debug_assignments_server_round w a revealed) by done.
    split; [done|by left].
Qed.

Lemma new_state_well_formed a tape pos :
  is_derangement NAMES a →
  well_formed (World (Stored (new_state a)) tape pos).
Proof.
  intros Hder. exists a, []. split_and!; [done..|apply NoDup_nil_2|].
  by intros n ?%elem_of_nil.
Qed.

(** One call, on a file without a round [initState] would keep or with
    a well-formed one. *)
Lemma handle_step c w :
  valid_round (loaded (disk w)) = false ∨ well_formed w →
  (disk (handle c w).2 = disk w ∧ 400 ≤ status (handle c w).1)
  ∨ well_formed (handle c w).2.
Proof.
  intros Hw. destruct c as [r|]; cbn [handle].
  - destruct Hw as [Hinvalid|Hwf]; [|right; by apply serve_well_formed].
    destruct (initState_outcomes false w)
      as [(e & pos & H)|[(_ & Hvalid & _)|(a & pos & H & Hder & _)]];
      [|congruence|].
    + destruct (serve_init_Throw r w _ _ H) as [[Hs ->]| ->]; left.
      * rewrite Hs. split; [done|lia].
      * simpl. split; [done|lia].
    + destruct (serve_init_Ok r w _ _ H) as [-> | ->].
      * right. apply serve_well_formed. by apply new_state_well_formed.
      * left. simpl. split; [done|lia].
  - destruct (api_reset_cases w) as [(pos & ->)|(a & pos & -> & Hder)].
    + left. simpl. split; [done|lia].
    + right. by apply new_state_well_formed.
Qed.

(** X16.  The state files the server writes.  Started on a file that
    holds no record [initState] would keep (no file, an unreadable one,
    one without valid assignments), or on a well-formed round, the
    server leaves after any calls, resets among them, either the file
    it found or a well-formed round: the names are the members, the
    assignments a derangement of them, and the revealed givers members,
    each listed once. *)
Theorem rounds_stay_well_formed calls w :
  valid_round (loaded (disk w)) = false ∨ well_formed w →
  disk (handle_all calls w) = disk w ∨ well_formed (handle_all calls w).
Proof.
  revert w. induction calls as [|c calls IH]; intros w Hw; [by left|].
  change (handle_all (c :: calls) w) with (handle_all calls (handle c w).2).
  destruct (handle_step c w Hw) as [[Hdisk _]|Hwf].
  - destruct (IH (handle c w).2) as [Hsame|Hwf].
    + destruct Hw as [Hinvalid|Hwf]; [left; by rewrite Hdisk|].
      right. by apply (well_formed_disk w).
    + left. congruence.
    + by right.
  - destruct (IH (handle c w).2 (or_intror Hwf)) as [Hsame|Hwf']; [|by right].
    right. by apply (well_formed_disk (handle c w).2).
Qed.

Lemma rounds_stay_well_formed_witness :
  disk (handle_all [Request GetState; Request (Draw (Some (JStr "Anni")));
                    Reset; Request (Draw (Some (JStr "Till")))]
          (World NoFile tape_zero 0)) = NoFile
  ∨ well_formed
      (handle_all [Request GetState; Request (Draw (Some (JStr "Anni")));
                   Reset; Request (Draw (Some (JStr "Till")))]
         (World NoFile tape_zero 0)).
Proof.
  apply (rounds_stay_well_formed _ (World NoFile tape_zero 0)).
  left. vm_compute. reflexivity.
Defined.

Lemma api_draw_error_world name w :
  valid_round (loaded (disk w)) = true →
  400 ≤ status (api_draw name w).1 → (api_draw name w).2 = w.
Proof.
  intros Hinit%initState_kept. unfold api_draw.
  destruct (negb (truthy name)
            || negb (Array_includes (JStr <$> NAMES) name)); [done|].
  destruct name as [[| | |n| |]|]; try done.
  unfold uncaught. revert Hinit. generalize (initState false).
  intros init Hinit. unfold bind, lift, ret. rewrite Hinit.
  destruct (get_prop _ "assignments") as [a|]; [|done].
  destruct (get_prop a n) as [g|]; [|done].
  destruct (negb (truthy g)); [done|].
  destruct (get_prop _ "revealed") as [revealed|]; [|done].
  destruct (includes revealed n) as [[]|]; [done| |done]. cbn [negb].
  destruct (push_revealed (loaded (disk w)) n); [|done].
  unfold saveState, fs_writeFileSync.
  destruct (disk w); cbn [fst snd status]; first [done | lia].
Qed.

Lemma serve_error_disk r w :
  400 ≤ status (serve r w).1 → disk (serve r w).2 = disk w.
Proof.
  intros Hstatus.
  destruct (initState_outcomes false w)
    as [(e & pos & H)|[(_ & Hvalid & _)|(a & pos & H & Hder & _)]].
  - by destruct (serve_init_Throw r w _ _ H) as [[_ ->]| ->].
  - destruct r as [|name|].
    + change (serve GetState w) with (api_state w).
      by rewrite api_state_world.
    + change (serve (Draw name) w) with (api_draw name w) in *.
      by rewrite api_draw_error_world.
    + change (serve GetDebugAssignments w) with (api_debug_assignments w).
      by rewrite api_debug_assignments_world.
  - destruct (serve_init_Ok r w _ _ H) as [Hr| ->]; [|done].
    destruct (serve_well_formed r
                (World (Stored (new_state a)) (random_tape w) pos))
      as [_ [Hs|Hbad]]; [by apply new_state_well_formed| |].
    + rewrite Hr in Hstatus. lia.
    + by rewrite Hbad.
Qed.

Lemma api_reset_error_disk w :
  400 ≤ status (api_reset w).1 → disk (api_reset w).2 = disk w.
Proof.
  destruct (api_reset_cases w) as [(pos & ->)|(a & pos & -> & _)].
  - done.
  - cbn [fst status]. lia.
Qed.

(** X17.  A failure never costs the round: a call answered with a status
    of 400 or more, from any of the four routes and whatever the file
    holds, leaves the state file as it was. *)
Theorem error_leaves_file c w :
  400 ≤ status (handle c w).1 → disk (handle c w).2 = disk w.
Proof.
  destruct c as [r|].
  - apply serve_error_disk.
  - apply api_reset_error_disk.
Qed.

Lemma error_leaves_file_witness :
  disk (handle (Request (Draw (Some (JStr "Nikolaus")))) sample_world).2
  = disk sample_world.
Proof.
  apply (error_leaves_file (Request (Draw (Some (JStr "Nikolaus"))))).
  vm_compute. lia.
Defined.

Lemma list_difference_partition (l k : list string) :
  NoDup l → NoDup k → (∀ x, x ∈ k → x ∈ l) →
  list_difference l k ++ k ≡ₚ l.
Proof.
  intros Hl Hk Hsub. apply NoDup_Permutation; [|done|].
  - apply NoDup_app. split_and!; [by apply NoDup_list_difference| |done].
    by intros x [_ ?]%list_elem_of_difference.
  - intros x. rewrite elem_of_app, list_elem_of_difference.
    destruct (decide (x ∈ k)); naive_solver.
Qed.

(** X18.  GET /api/state on a well-formed round.  It is answered with
    200 and changes nothing; the body lists the members, the revealed
    givers as recorded, and as available the members not revealed, in
    the order of the members; available and revealed together are the
    members, each once. *)
Theorem api_state_well_formed w a revealed :
  disk w = Stored (server_round a revealed) → is_derangement NAMES a →
  NoDup revealed → (∀ n, n ∈ revealed → n ∈ NAMES) →
  ∃ fields : gmap string json,
    api_state w = (StateBody (JObj fields), w)
    ∧ fields !! "names" = Some (JArr (JStr <$> NAMES))
    ∧ fields !! "revealed" = Some (JArr (JStr <$> revealed))
    ∧ fields !! "availableNames"
      = Some (JArr (JStr <$> list_difference NAMES revealed))
    ∧ list_difference NAMES revealed ++ revealed ≡ₚ NAMES
    ∧ length (list_difference NAMES revealed) + length revealed
      = length NAMES.
Proof.
  intros Hdisk Hder Hnd Hsub.
  pose proof (list_difference_partition NAMES revealed NAMES_NoDup Hnd Hsub)
    as Hpart.
  rewrite (api_state_server_round w a revealed) by done.
  eexists. split; [reflexivity|]. unfold set_field.
  cbn [ps_names ps_availableNames ps_revealed].
  split_and!.
  - by rewrite lookup_insert_eq.
  - rewrite !lookup_insert_ne by done. by rewrite lookup_insert_eq.
  - rewrite lookup_insert_ne by done. by rewrite lookup_insert_eq.
  - done.
  - by rewrite <-length_app, Hpart.
Qed.

Lemma api_state_well_formed_witness :
  ∃ fields : gmap string json,
    api_state sample_world = (StateBody (JObj fields), sample_world)
    ∧ fields !! "availableNames"
      = Some (JArr (JStr <$> list_difference NAMES ["Ben"])).
Proof.
  destruct (api_state_well_formed sample_world circle ["Ben"])
    as (fields & Hstate & _ & _ & Havailable & _).
  - reflexivity.
  - apply (build_assignments_derangement NAMES
             (drop 1 NAMES ++ take 1 NAMES)); compute_done.
  - compute_done.
  - intros n ->%list_elem_of_singleton. compute_done.
  - exists fields. split; [exact Hstate|exact Havailable].
Defined.

(** X19.  POST /api/draw by a member on a well-formed round.  The
    answer is 200 with the member's giftee, another member; it says
    "already revealed" exactly when the member is listed as revealed;
    the first draw appends the member to that list, a later one changes
    nothing; no random number is drawn. *)
Theorem api_draw_well_formed w a revealed n :
  disk w = Stored (server_round a revealed) → is_derangement NAMES a →
  n ∈ NAMES →
  ∃ g, a !! n = Some (JStr g) ∧ g ∈ NAMES ∧ g ≠ n
       ∧ api_draw (Some (JStr n)) w
         = (DrawBody n (Some (JStr g)) (bool_decide (n ∈ revealed)),
            World (Stored (server_round a
                     (if bool_decide (n ∈ revealed) then revealed
                      else revealed ++ [n])))
              (random_tape w) (random_pos w)).
Proof. apply api_draw_server_round. Qed.

Lemma api_draw_well_formed_witness :
  ∃ g, circle !! "Till" = Some (JStr g) ∧ g ∈ NAMES ∧ g ≠ "Till"
       ∧ api_draw (Some (JStr "Till")) sample_world
         = (DrawBody "Till" (Some (JStr g)) false,
            World (Stored (server_round circle ["Ben"; "Till"])) tape_zero 0).
Proof.
  destruct (api_draw_well_formed sample_world circle ["Ben"] "Till")
    as (g & Hg & Hin & Hne & Hdraw).
  - reflexivity.
  - apply (build_assignments_derangement NAMES
             (drop 1 NAMES ++ take 1 NAMES)); compute_done.
  - compute_done.
  - exists g. split; [exact Hg|]. split; [exact Hin|].
    split; [exact Hne|exact Hdraw].
Defined.

(** X20.  A kept record whose [revealed] is not an array.  [initState]
    keeps such a record (only the assignments are validated), and then
    no draw is ever recorded: a member's draw leaves the file as it is
    and either throws a TypeError out of the handler, or, if [revealed]
    is a string that contains the name, answers "already revealed". *)
Theorem draw_needs_revealed_array w n revealed :
  valid_round (loaded (disk w)) = true →
  get_prop (Some (loaded (disk w))) "revealed" = Ok revealed →
  (∀ l, revealed ≠ Some (JArr l)) →
  n ∈ NAMES →
  api_draw (Some (JStr n)) w = (Uncaught TypeError, w)
  ∨ ∃ s giftee, revealed = Some (JStr s) ∧ String_includes s n = true
                ∧ api_draw (Some (JStr n)) w = (DrawBody n giftee true, w).
Proof.
  intros Hvalid Hr Harray Hn.
  pose proof (initState_kept w Hvalid) as Hinit.
  destruct (valid_round_inv _ Hvalid) as (a & Ha & Hval).
  destruct (validateAssignments_Ok_giftee a n Hval Hn) as (g & Hg & Htruthy).
  unfold api_draw.
  assert (truthy (Some (JStr n)) = true) as ->.
  { simpl. apply negb_true_iff, bool_decide_eq_false_2. intros ->.
    by apply NAMES_nonempty. }
  assert (Array_includes (JStr <$> NAMES) (Some (JStr n)) = true) as ->.
  { apply Array_includes_names. eauto. }
  cbn [negb orb]. unfold uncaught. revert Hinit.
  generalize (initState false). intros init Hinit.
  unfold bind, lift, ret. rewrite Hinit, Ha, Hg, Htruthy, Hr. cbn [negb].
  destruct revealed as [[| | |s|l|]|]; cbn [includes]; try by left.
  - destruct (String_includes s n) eqn:Hinc; cbn [negb].
    + right. eauto.
    + left.
      assert (push_revealed (loaded (disk w)) n = Throw TypeError) as ->;
        [|done].
      unfold push_revealed. unfold get_prop in Hr.
      destruct (loaded (disk w)) as [| | | | |m]; try done.
      injection Hr as ->. done.
  - by destruct (Harray l).
Qed.

Lemma draw_needs_revealed_array_witness :
  api_draw (Some (JStr "Anni")) (World (Stored odd_record) tape_zero 0)
  = (Uncaught TypeError, World (Stored odd_record) tape_zero 0)
  ∨ ∃ s giftee, Some (JNum 7) = Some (JStr s) ∧ String_includes s "Anni" = true
       ∧ api_draw (Some (JStr "Anni")) (World (Stored odd_record) tape_zero 0)
         = (DrawBody "Anni" giftee true,
            World (Stored odd_record) tape_zero 0).
Proof.
  apply (draw_needs_revealed_array (World (Stored odd_record) tape_zero 0)
           "Anni" (Some (JNum 7))).
  - vm_compute. reflexivity.
  - vm_compute. reflexivity.
  - done.
  - compute_done.
Defined.

(** *** The reset never reads the file *)

Lemma shuffle_disk i perm d d' tape pos :
  (shuffle i perm (World d tape pos)).1
  = (shuffle i perm (World d' tape pos)).1.
Proof.
  revert perm pos. induction i as [|i IH]; intros perm pos; [done|].
  simpl. unfold bind, Math_random. simpl. apply IH.
Qed.

Lemma draw_loop_disk fuel attempts names d d' tape pos :
  ∃ r pos',
    draw_loop fuel attempts names (World d tape pos)
    = (r, World d tape pos')
    ∧ draw_loop fuel attempts names (World d' tape pos)
      = (r, World d' tape pos').
Proof.
  revert attempts pos.
  induction fuel as [|fuel IH]; intros attempts pos; simpl.
  { unfold throw. eauto. }
  unfold bind.
  pose proof (shuffle_disk (length names - 1) names d d' tape pos) as Hsame.
  destruct (shuffle_world (length names - 1) names (World d tape pos))
    as [perm H1].
  destruct (shuffle_world (length names - 1) names (World d' tape pos))
    as [perm' H2].
  rewrite H1, H2 in Hsame |- *. simpl in Hsame. injection Hsame as <-.
  simpl. destruct (_ <? _)%N; [unfold throw; eauto|].
  destruct (has_fixed_point perm names); [apply IH|unfold ret; eauto].
Qed.

Lemma createDerangement_disk names d d' tape pos :
  ∃ r pos',
    createDerangement names (World d tape pos) = (r, World d tape pos')
    ∧ createDerangement names (World d' tape pos) = (r, World d' tape pos').
Proof.
  unfold createDerangement.
  destruct names as [|name0 [|name1 [|name2 rest]]];
    [unfold throw, ret; eauto..|].
  generalize (name0 :: name1 :: name2 :: rest) as names. intros names.
  generalize (N.to_nat (MAX_ATTEMPTS + 1)). intros fuel.
  destruct (draw_loop_disk fuel 0 names d d' tape pos)
    as (r & pos' & H1 & H2).
  unfold bind. rewrite H1, H2. destruct r as [perm|e]; [|eauto].
  unfold lift, ret. destruct (validateAssignments _ names); eauto.
Qed.

Lemma new_round_disk d d' tape pos :
  (d = Blocked ↔ d' = Blocked) →
  ∃ r pos',
    new_round (World d tape pos)
    = (r, World (match r with Ok s => Stored s | Throw _ => d end) tape pos')
    ∧ new_round (World d' tape pos)
      = (r, World (match r with Ok s => Stored s | Throw _ => d' end)
              tape pos').
Proof.
  intros [Hto Hfrom]. unfold new_round.
  destruct (createDerangement_disk NAMES d d' tape pos)
    as (r & pos' & H1 & H2).
  revert H1 H2. generalize (createDerangement NAMES). intros create H1 H2.
  unfold bind. rewrite H1, H2.
  destruct r as [a|e]; [|exists (Throw e), pos'; split; reflexivity].
  unfold saveState, fs_writeFileSync, ret. cbn [disk random_tape random_pos].
  destruct d, d';
    try (by specialize (Hto eq_refl)); try (by specialize (Hfrom eq_refl));
    first [ exists (Throw IOError), pos'; split; reflexivity
          | exists (Ok (new_state a)), pos'; split; reflexivity ].
Qed.

Lemma api_reset_new_round w :
  api_reset w
  = match new_round w with
    | (Ok _, w') => (ResetBody, w')
    | (Throw _, w') => (ServerError, w')
    end.
Proof.
  pose proof (initState_new true w (or_introl eq_refl)) as E.
  unfold api_reset, caught. revert E.
  generalize new_round (initState true). intros new init E.
  unfold bind, ret. rewrite E. by destruct (new w) as [[] ?].
Qed.

(** X21.  POST /api/reset never reads the state file; of the file only
    whether it can be written matters.  For two files that can both be
    written, or both not, the same random numbers give the same answer,
    and when the answer is 200 the same new round in the file. *)
Theorem reset_ignores_file d d' tape pos :
  (d = Blocked ↔ d' = Blocked) →
  (api_reset (World d tape pos)).1 = (api_reset (World d' tape pos)).1
  ∧ (status (api_reset (World d tape pos)).1 = 200 →
     (api_reset (World d tape pos)).2 = (api_reset (World d' tape pos)).2).
Proof.
  intros Hwritable. rewrite !api_reset_new_round.
  destruct (new_round_disk d d' tape pos Hwritable) as (r & pos' & H1 & H2).
  revert H1 H2. generalize new_round. intros new H1 H2.
  rewrite H1, H2.
  destruct r as [a|e]; cbn [fst snd status].
  - done.
  - split; [done|]. lia.
Qed.

Lemma reset_ignores_file_witness :
  (api_reset (World NoFile tape_zero 0)).1
  = (api_reset (World (Stored sample_round) tape_zero 0)).1
  ∧ (status (api_reset (World NoFile tape_zero 0)).1 = 200 →
     (api_reset (World NoFile tape_zero 0)).2
     = (api_reset (World (Stored sample_round) tape_zero 0)).2).
Proof.
  apply (reset_ignores_file NoFile (Stored sample_round) tape_zero 0).
  split; discriminate.
Defined.

(** ** The state and the debug route on a kept record *)

(** X22.  When GET /api/state answers 200 on a kept record.  The record
    is kept for its assignments alone; the route then needs [names] to
    be an array (for [filter]) and [revealed] to be something
    [new Set] accepts: [undefined], [null], an array or a string.
    Otherwise it answers 500; in no case does it change anything. *)
Theorem api_state_answers w names revealed :
  valid_round (loaded (disk w)) = true →
  get_prop (Some (loaded (disk w))) "names" = Ok names →
  get_prop (Some (loaded (disk w))) "revealed" = Ok revealed →
  (api_state w).2 = w
  ∧ (status (api_state w).1 = 200 ∨ (api_state w).1 = ServerError)
  ∧ (status (api_state w).1 = 200 ↔
     (∃ l, names = Some (JArr l))
     ∧ (revealed = None ∨ revealed = Some JNull
        ∨ (∃ l, revealed = Some (JArr l))
        ∨ (∃ s, revealed = Some (JStr s)))).
Proof.
  intros Hvalid Hn Hr. split; [by apply api_state_world|].
  pose proof (initState_kept w Hvalid) as Hinit.
  unfold api_state, caught, getPublicState. revert Hinit.
  generalize (initState false). intros init Hinit.
  unfold bind, lift, ret. rewrite Hinit, Hr.
  destruct revealed as [[|b|z|s|l|m]|]; cbn [Set_of]; rewrite ?Hn;
    cbn [fst status].
  all: try (split; [by right|]; split; [done|];
            intros (_ & [?|[?|[[? ?]|[? ?]]]]); done).
  all: destruct names as [[| | | |l'|]|]; cbn [Array_filter fst status].
  all: try (split; [by right|]; split; [done|]; by intros ([? ?] & _)).
  all: split; [by left|]; split; [|done]; intros _; split; eauto 6.
Qed.

Lemma api_state_answers_witness :
  (api_state (World (Stored odd_record) tape_zero 0)).2
  = World (Stored odd_record) tape_zero 0
  ∧ (api_state (World (Stored odd_record) tape_zero 0)).1 = ServerError.
Proof.
  destruct (api_state_answers (World (Stored odd_record) tape_zero 0)
              None (Some (JNum 7))) as (Hworld & [Hok|Herror] & Hiff).
  - vm_compute. reflexivity.
  - vm_compute. reflexivity.
  - vm_compute. reflexivity.
  - apply Hiff in Hok as ([l Hl] & _). discriminate Hl.
  - split; [exact Hworld|exact Herror].
Defined.

(** X23.  GET /api/debug-assignments shows the mapping the draws answer
    from: what a draw names as giftee afterwards is the property of the
    giver in the object the debug route returned. *)
Theorem debug_agrees_with_draw w assignments w' name n giftee already w1 :
  api_debug_assignments w = (DebugBody assignments, w') →
  api_draw name w' = (DrawBody n giftee already, w1) →
  get_prop assignments n = Ok giftee.
Proof.
  intros Hdebug Hdraw.
  assert (∃ state, initState false w = (Ok state, w')
                   ∧ get_prop (Some state) "assignments" = Ok assignments)
    as (state & Hinit & Ha).
  { revert Hdebug. unfold api_debug_assignments, caught.
    generalize (initState false). intros init. unfold bind, lift, ret.
    destruct (init w) as [[state|e] w0] eqn:Hinit; [|done].
    destruct (get_prop (Some state) "assignments") as [a|] eqn:Ha; [|done].
    intros [= <- <-]. eauto. }
  apply initState_Ok in Hinit as (_ & _ & _ & Hagain).
  apply api_draw_DrawBody in Hdraw
    as (_ & _ & state' & w0 & a & _ & Hinit' & Ha' & Hg & _).
  rewrite Hagain in Hinit'. injection Hinit' as <- <-.
  rewrite Ha in Ha'. by injection Ha' as <-.
Qed.

Lemma debug_agrees_with_draw_witness :
  get_prop (Some (JObj circle)) "Anni" = Ok (Some (JStr "Ben")).
Proof.
  apply (debug_agrees_with_draw sample_world (Some (JObj circle)) sample_world
           (Some (JStr "Anni")) "Anni" (Some (JStr "Ben")) false
           (World (Stored sample_round_after) tape_zero 0)).
  - vm_compute. reflexivity.
  - vm_compute. reflexivity.
Defined.
